(** * Payflow demo: policy codec, sweep engine, scheduler and merchant directory

    A shallow embedding of the TypeScript sources of the Payflow demo:
    [formatCondition] (src/commands/viewPolicies.ts), [runScheduledSweep]
    (src/commands/scheduledSweep.ts), [runSweepFunds]
    (src/commands/sweepFunds.ts), [listMerchants] (src/utils/merchants.ts)
    and the code fragments of docs/04-policies.md and
    docs/05-fund-sweeping.md, with the properties the specification states
    about them. The embedding comes first, the properties after it. *)

From Stdlib Require Import String Ascii List Bool Arith NArith ZArith Lia.
From Stdlib Require Import DecimalString.
Import ListNotations.

Local Open Scope list_scope.
Local Open Scope string_scope.

(* ===================================================================== *)
(** ** JavaScript string primitives used by the sources

    Strings are byte strings; the functions below follow the ECMAScript
    methods of the same name on ASCII input. *)
(* ===================================================================== *)

Module Js.

(** [Some rest] when [s = p ++ rest]. *)
Fixpoint strip_prefix (p s : string) : option string :=
  match p, s with
  | EmptyString, _ => Some s
  | String _ _, EmptyString => None
  | String a p', String b s' =>
      if Ascii.eqb a b then strip_prefix p' s' else None
  end.

(** [s.startsWith(p)]. *)
Definition startsWith (p s : string) : bool :=
  match strip_prefix p s with
  | Some _ => true
  | None => false
  end.

(** [s.slice(n)] for [0 <= n]: the string without its first [n] characters. *)
Fixpoint drop (n : nat) (s : string) : string :=
  match n, s with
  | O, _ => s
  | S _, EmptyString => EmptyString
  | S k, String _ s' => drop k s'
  end.

(** [s.slice(-n)]: the last [n] characters (all of [s] when it is shorter). *)
Definition slice_last (n : nat) (s : string) : string :=
  drop (String.length s - n) s.

(** [s.slice(0, n)]. *)
Fixpoint take (n : nat) (s : string) : string :=
  match n, s with
  | O, _ => EmptyString
  | S _, EmptyString => EmptyString
  | S k, String c s' => String c (take k s')
  end.

(** [s.includes(sub)]. *)
Fixpoint includes (sub s : string) : bool :=
  startsWith sub s ||
  match s with
  | EmptyString => false
  | String _ s' => includes sub s'
  end.

(** [s.endsWith(suffix)]. *)
Definition endsWith (suffix s : string) : bool :=
  (String.length suffix <=? String.length s)%nat &&
  String.eqb (slice_last (String.length suffix) s) suffix.

Definition cons_head (c : ascii) (parts : list string) : list string :=
  match parts with
  | h :: t => String c h :: t
  | [] => [String c EmptyString]
  end.

(** [s.split(sep)] for a non-empty separator: the pieces between the
    occurrences of [sep], found from the left and never overlapping. The
    fuel is the length of [s], one unit per character consumed. *)
Fixpoint split_fuel (fuel : nat) (sep s : string) : list string :=
  match fuel with
  | O => [s]
  | S f =>
      match s with
      | EmptyString => [EmptyString]
      | String c s' =>
          match strip_prefix sep s with
          | Some rest => EmptyString :: split_fuel f sep rest
          | None => cons_head c (split_fuel f sep s')
          end
      end
  end.

Definition split (sep s : string) : list string :=
  split_fuel (String.length s) sep s.

(** [parts.join(sep)]. *)
Fixpoint join (sep : string) (parts : list string) : string :=
  match parts with
  | [] => EmptyString
  | [p] => p
  | p :: rest => p ++ sep ++ join sep rest
  end.

(** White space of [trim]: TAB, LF, VT, FF, CR and SPACE. *)
Definition is_space (c : ascii) : bool :=
  let n := nat_of_ascii c in
  ((9 <=? n) && (n <=? 13))%nat || (n =? 32)%nat.

Fixpoint trimStart (s : string) : string :=
  match s with
  | EmptyString => EmptyString
  | String c s' => if is_space c then trimStart s' else s
  end.

Fixpoint trimEnd (s : string) : string :=
  match s with
  | EmptyString => EmptyString
  | String c s' =>
      match trimEnd s' with
      | EmptyString => if is_space c then EmptyString else String c EmptyString
      | r => String c r
      end
  end.

Definition trim (s : string) : string := trimEnd (trimStart s).

(** [c.toLowerCase()] on ASCII: A-Z go to a-z. *)
Definition lower_ascii (c : ascii) : ascii :=
  let n := nat_of_ascii c in
  if ((65 <=? n) && (n <=? 90))%nat then ascii_of_nat (n + 32) else c.

Fixpoint toLowerCase (s : string) : string :=
  match s with
  | EmptyString => EmptyString
  | String c s' => String (lower_ascii c) (toLowerCase s')
  end.

Fixpoint repeat_char (c : ascii) (n : nat) : string :=
  match n with
  | O => EmptyString
  | S k => String c (repeat_char c k)
  end.

(** [s.padStart(n, c)] for a one-character filler. *)
Definition padStart (n : nat) (c : ascii) (s : string) : string :=
  repeat_char c (n - String.length s) ++ s.

(** [s.replace(pat, by)] with a string pattern: the first occurrence only. *)
Fixpoint replace_first (pat by_ s : string) : string :=
  match strip_prefix pat s with
  | Some rest => by_ ++ rest
  | None =>
      match s with
      | EmptyString => EmptyString
      | String c s' => String c (replace_first pat by_ s')
      end
  end.

(** Template-literal rendering of a non-negative integer. *)
Definition show_nat (n : nat) : string :=
  NilEmpty.string_of_uint (Nat.to_uint n).

(** The run of characters before the next single quote, when there is one. *)
Fixpoint until_quote (s : string) : option string :=
  match s with
  | EmptyString => None
  | String c s' =>
      if Ascii.eqb c "'" then Some EmptyString
      else option_map (String c) (until_quote s')
  end.

(** [s.match(/<pre>([^']+)'/)], first capture group: the regular expression
    is tried at every position from the left; after the literal [pre] the
    greedy class [[^']+] takes the whole run of non-quote characters, which
    must be non-empty and closed by a quote (giving characters back never
    helps, the next one is not a quote). *)
Fixpoint match_quoted (pre s : string) : option string :=
  let here :=
    match strip_prefix pre s with
    | Some rest =>
        match until_quote rest with
        | Some (String c g) => Some (String c g)
        | _ => None
        end
    | None => None
    end in
  match here with
  | Some g => Some g
  | None =>
      match s with
      | EmptyString => None
      | String _ s' => match_quoted pre s'
      end
  end.

(** Gluing a string in front of the first piece of a split. *)
Definition prepend (h : string) (parts : list string) : list string :=
  match parts with
  | x :: t => (h ++ x) :: t
  | [] => [h]
  end.

(** Strings without a blank, and without a single quote. *)
Fixpoint no_blank (s : string) : bool :=
  match s with
  | EmptyString => true
  | String c s' => negb (Ascii.eqb " " c) && no_blank s'
  end.

Fixpoint no_quote (s : string) : bool :=
  match s with
  | EmptyString => true
  | String c s' => negb (Ascii.eqb c "'") && no_quote s'
  end.

(** [xs.forEach((x, idx) => ...)] collecting what each call pushes. *)
Fixpoint flat_mapi {A B : Type} (f : nat -> A -> list B) (idx : nat)
  (xs : list A) : list B :=
  match xs with
  | [] => []
  | x :: rest => (f idx x ++ flat_mapi f (S idx) rest)%list
  end.

End Js.

(* ===================================================================== *)
(** ** PredicateCodec: the transfer restriction and its display decoder *)
(* ===================================================================== *)

Module PredicateCodec.

(** The ERC-20 [transfer(address,uint256)] selector of the restriction. *)
Definition transferSelector : string := "a9059cbb".

(** docs/04-policies.md, [const condition = [...].join(" && ")]: the three
    clauses in the order target, selector, argument. *)
Definition condition (usdcTokenAddress treasuryAddressPadded : string)
  : string :=
  Js.join " && "
    [ "eth.tx.to == '" ++ Js.toLowerCase usdcTokenAddress ++ "'";
      "eth.tx.data[2..10] == '" ++ transferSelector ++ "'";
      "eth.tx.data[10..74] == '" ++ treasuryAddressPadded ++ "'" ].

Definition is_hex_lower (c : ascii) : bool :=
  let n := nat_of_ascii c in
  ((48 <=? n) && (n <=? 57))%nat || ((97 <=? n) && (n <=? 102))%nat.

Fixpoint all_hex_lower (s : string) : bool :=
  match s with
  | EmptyString => true
  | String c s' => is_hex_lower c && all_hex_lower s'
  end.

(** A well-formed 20-byte address in lower case: [0x] and 40 hex digits. *)
Definition isAddress (s : string) : bool :=
  match Js.strip_prefix "0x" s with
  | Some h => (String.length h =? 40)%nat && all_hex_lower h
  | None => false
  end.

(** Modelled from the spec: the computation of [treasuryAddressPadded] in
    src/createPolicy.ts, which is not among the sources. The spec has the
    destination lower-cased and left-padded to a 32-byte slot (64 hex
    digits, no [0x]). *)
Definition treasuryAddressPadded (treasuryAddress : string) : string :=
  Js.padStart 64 "0" (Js.drop 2 (Js.toLowerCase treasuryAddress)).

Inductive CompileResult : Type :=
| Compiled (predicate : string)
| InvalidAddress.

(** Modelled from the spec: the address check of [compile] (the body of
    createUSDCOnlyPolicy is not among the sources): both addresses are
    lower-cased and must then be well-formed, else [InvalidAddress]. *)
Definition compile (tokenAddress destinationAddress : string)
  : CompileResult :=
  if isAddress (Js.toLowerCase tokenAddress)
     && isAddress (Js.toLowerCase destinationAddress)
  then Compiled (condition tokenAddress
                   (treasuryAddressPadded destinationAddress))
  else InvalidAddress.

(** What one clause of a condition decodes to in [formatCondition]: the
    three known shapes with their captured groups, or the clause as it is. *)
Inductive Clause : Type :=
| TxTo (address : string)
| FunctionSelector (selector : string)
| TransferDestination (paddedAddress actualAddress : string)
| Generic (part : string).

(** The [if / else if] chain of [formatCondition] on one part, up to the
    values each branch extracts. A part that names a known field but does
    not match its regular expression falls back to the generic rendering. *)
Definition parseClause (part : string) : Clause :=
  if Js.includes "eth.tx.to ==" part then
    match Js.match_quoted "eth.tx.to == '" part with
    | Some address => TxTo address
    | None => Generic part
    end
  else if Js.includes "eth.tx.data[2..10] ==" part then
    match Js.match_quoted "eth.tx.data[2..10] == '" part with
    | Some selector => FunctionSelector selector
    | None => Generic part
    end
  else if Js.includes "eth.tx.data[10..74] ==" part then
    match Js.match_quoted "eth.tx.data[10..74] == '" part with
    | Some paddedAddress =>
        TransferDestination paddedAddress
          ("0x" ++ Js.slice_last 40 paddedAddress)
    | None => Generic part
    end
  else Generic part.

(** [`   ${idx + 1}. ${text}`]. *)
Definition numbered (idx : nat) (text : string) : string :=
  "   " ++ Js.show_nat (idx + 1) ++ ". " ++ text.

(** [condition.split(" && ").map(part => part.trim())]. *)
Definition clauses (condition : string) : list string :=
  map Js.trim (Js.split " && " condition).

Section Format.

(** [formatAddress] of src/utils is not among the sources: a parameter. *)
Variable formatAddress : string -> string.

(** The lines one clause pushes onto [formatted]. *)
Definition renderClause (idx : nat) (c : Clause) : list string :=
  match c with
  | TxTo address =>
      [ numbered idx "Transaction Destination:";
        "      eth.tx.to == '" ++ address ++ "'";
        "      → Must be to USDC token contract ("
          ++ formatAddress address ++ ")" ]
  | FunctionSelector selector =>
      [ numbered idx "Function Selector:";
        "      eth.tx.data[2..10] == '" ++ selector ++ "'";
        "      → ERC-20 transfer() function (0x" ++ selector ++ ")" ]
  | TransferDestination paddedAddress actualAddress =>
      [ numbered idx "Transfer Destination:";
        "      eth.tx.data[10..74] == '" ++ paddedAddress ++ "'";
        "      → Treasury address: " ++ formatAddress actualAddress ]
  | Generic part => [ numbered idx part ]
  end.

(** [formatCondition] of src/commands/viewPolicies.ts. *)
Definition formatCondition (condition : string) : list string :=
  match condition with
  | EmptyString => []
  | _ =>
      Js.flat_mapi (fun idx part => renderClause idx (parseClause part))
        0 (clauses condition)
  end.

End Format.







(** Sample inputs: the Sepolia USDC contract in its checksummed spelling,
    a treasury address in lower case, and a condition with a clause the
    decoder does not know. *)
Definition sepoliaUsdc : string :=
  "0x1C7D4B196Cb0C7B01d743Fbc6116a902379C7238".

Definition sampleTreasury : string :=
  "0x1234567890abcdef1234567890abcdef12345678".

Definition mixedCondition : string :=
  "eth.tx.value < 5 && eth.tx.data[2..10] == 'a9059cbb' && eth.tx.to == ''".


End PredicateCodec.

(* ===================================================================== *)
(** ** Exceptions

    A call either returns or throws; [try_catch] is [try { } catch { }]. *)
(* ===================================================================== *)

Inductive Res (E A : Type) : Type :=
| Return (a : A)
| Throw (e : E).

Arguments Return {E A} a.
Arguments Throw {E A} e.

Definition bind {E A B : Type} (m : Res E A) (k : A -> Res E B) : Res E B :=
  match m with
  | Return a => k a
  | Throw e => Throw e
  end.

Definition try_catch {E A : Type} (body : Res E A) (handler : E -> Res E A)
  : Res E A :=
  match body with
  | Return a => Return a
  | Throw e => handler e
  end.

Definition throws {E A : Type} (m : Res E A) : bool :=
  match m with
  | Return _ => false
  | Throw _ => true
  end.

Declare Scope exn_scope.
Notation "'let*' x ':=' m 'in' k" := (bind m (fun x => k))
  (at level 10, x name, m at level 100, k at level 200) : exn_scope.
Local Open Scope exn_scope.

(** JavaScript [a || b] on an optional string: the empty string is falsy. *)
Definition or_else (a : option string) (b : string) : string :=
  match a with
  | Some (String c s) => String c s
  | _ => b
  end.

Definition truthy (a : option string) : bool :=
  match a with
  | Some (String _ _) => true
  | _ => false
  end.

(* ===================================================================== *)
(** ** SweepOrchestrator

    src/sweepUSDC.ts is not among the sources; only its callers and the
    fragments quoted in docs/05-fund-sweeping.md are. *)
(* ===================================================================== *)

Module Sweep.

Inductive OutcomeKind : Type :=
| InsufficientGas
| NoBalance
| BelowThreshold
| Success
| SigningRejected
| SigningUnavailable
| TransactionFailed
| ConfirmationUnknown.

Definition is_skip (k : OutcomeKind) : bool :=
  match k with
  | InsufficientGas | NoBalance | BelowThreshold => true
  | _ => false
  end.

Definition is_failure (k : OutcomeKind) : bool :=
  match k with
  | SigningRejected | SigningUnavailable
  | TransactionFailed | ConfirmationUnknown => true
  | _ => false
  end.

(** The sweep attempt handed back to the caller. *)
Record SweepOutcome : Type := {
  kind : OutcomeKind;
  amount : option N;
  transactionId : option string
}.

(** The token-transfer call of step 3. *)
Record TxRequest : Type := {
  tx_to : string;
  tx_destination : string;
  tx_amount : N
}.

(** Balances in base units: native gas by address, tokens by token
    contract and holder. *)
Record Ledger : Type := {
  native : string -> N;
  token : string -> string -> N
}.

(** How the collaborators fail. *)
Inductive Failure : Type :=
| PolicyDenied
| TransportFailure
| WaitTimeout
| RpcError.

(** Modelled from the spec: the collaborators of section 6 as one sweep
    attempt meets them. [signAndSend] fails when the backend's predicate
    evaluation disallows the transaction or the transport is down;
    [waitForConfirmation] gives the receipt status or fails to observe
    one. [linkedKeyId] is the account's linked signing key, [gasFee] what
    the chain charges the sender of a mined transaction, and [lands] tells
    whether a transaction whose confirmation went unobserved is mined
    after all. *)
Record Collaborators : Type := {
  linkedKeyId : string -> string -> option string;
  signAndSend : string -> string -> TxRequest -> Res Failure string;
  waitForConfirmation : string -> nat -> Res Failure bool;
  gasFee : N;
  lands : bool
}.

Definition set_balance (f : string -> N) (a : string) (v : N)
  : string -> N :=
  fun x => if String.eqb x a then v else f x.

(** Modelled from the spec: a mined ERC-20 transfer debits the sender and
    credits the destination; the sender pays the gas
    (docs/05-fund-sweeping.md, Gas Fee Management). *)
Definition charge (l : Ledger) (source : string) (fee : N) : Ledger :=
  {| native := set_balance (native l) source (native l source - fee);
     token := token l |}.

Definition transfer (l : Ledger) (tok source destination : string) (amt : N)
  : Ledger :=
  let debited := set_balance (token l tok) source (token l tok source - amt) in
  let credited :=
    set_balance debited destination (debited destination + amt) in
  {| native := native l;
     token := fun t => if String.eqb t tok then credited else token l t |}.

(** What one attempt leaves behind: the outcome (or a thrown failure), the
    ledger afterwards, and the transactions that were broadcast. *)
Record Run : Type := {
  result : Res Failure SweepOutcome;
  ledger : Ledger;
  issued : list TxRequest
}.

Definition skip (k : OutcomeKind) (l : Ledger) : Run :=
  {| result := Return {| kind := k; amount := None; transactionId := None |};
     ledger := l;
     issued := [] |}.

Definition classify_signing (f : Failure) : OutcomeKind :=
  match f with
  | PolicyDenied => SigningRejected
  | _ => SigningUnavailable
  end.

(** Modelled from the spec: the signing identifier of step 3, the
    account's linked signing key if present, else its address. *)
Definition signingIdentifier (c : Collaborators)
  (isolationContext sourceAddress : string) : string :=
  match linkedKeyId c isolationContext sourceAddress with
  | Some keyId => keyId
  | None => sourceAddress
  end.

(** docs/05-fund-sweeping.md, [usdcContract.transfer(treasuryAddress, balance)]. *)
Definition transferRequest (tokenAddress destinationAddress : string)
  (balance : N) : TxRequest :=
  {| tx_to := tokenAddress;
     tx_destination := destinationAddress;
     tx_amount := balance |}.

(** Modelled from the spec: [sweep] of section 4.2 (src/sweepUSDC.ts is
    not among the sources), with the tests in the order of the state
    machine Idle, CheckGas, CheckBalance, Skip or Transfer, Confirm, and
    with the comparisons of docs/05-fund-sweeping.md
    ([merchantEthBalance < minGas], [balance === 0n],
    [balance < thresholdRaw], [receipt.status !== 1]). *)
Definition sweep (c : Collaborators) (l : Ledger)
  (sourceAddress isolationContext sourceWalletHandle
     destinationAddress tokenAddress network : string)
  (threshold minGas : N) : Run :=
  (* 1. CheckGas *)
  if (native l sourceAddress <? minGas)%N then skip InsufficientGas l
  else
    (* 2. CheckBalance *)
    let balance := token l tokenAddress sourceAddress in
    if (balance =? 0)%N then skip NoBalance l
    else if (balance <? threshold)%N then skip BelowThreshold l
    else
      (* 3. Transfer: the whole balance, signed inside the account's
         isolation context *)
      let request :=
        transferRequest tokenAddress destinationAddress balance in
      let signed :=
        signAndSend c isolationContext
          (signingIdentifier c isolationContext sourceAddress) request in
      let mined :=
        transfer (charge l sourceAddress (gasFee c))
          tokenAddress sourceAddress destinationAddress balance in
      {| result :=
           try_catch
             (let* txId := signed in
              (* 4. Broadcast: the identifier is known from here on.
                 5. Confirm: one confirmation. *)
              let outcome (k : OutcomeKind) :=
                {| kind := k;
                   amount := Some balance;
                   transactionId := Some txId |} in
              try_catch
                (let* status := waitForConfirmation c txId 1 in
                 Return (outcome
                           (if status then Success else TransactionFailed)))
                (fun _ => Return (outcome ConfirmationUnknown)))
             (fun e =>
                Return {| kind := classify_signing e;
                          amount := Some balance;
                          transactionId := None |});
         ledger :=
           match signed with
           | Throw _ => l
           | Return txId =>
               match waitForConfirmation c txId 1 with
               | Return true => mined
               | Return false => charge l sourceAddress (gasFee c)
               | Throw _ => if lands c then mined else l
               end
           end;
         issued :=
           match signed with
           | Throw _ => []
           | Return _ => [request]
           end |}.

(** Sample world: a merchant wallet holding 0.05 USDC and exactly the gas
    reserve of 0.001 ETH, an empty wallet with gas to spare, and
    collaborators that sign, mine and confirm, charging a gas fee. *)
Definition sampleMinGas : N := 1000000000000000.
Definition sampleThreshold : N := 30000.
Definition merchantAddress : string := "0xmerchant".
Definition treasuryAddress : string := "0xtreasury".
Definition usdcAddress : string := "0xusdc".

Definition fundedLedger : Ledger :=
  {| native := fun a =>
       if String.eqb a merchantAddress then sampleMinGas else 0%N;
     token := fun _ a =>
       if String.eqb a merchantAddress then 50000%N else 0%N |}.

Definition emptyLedger : Ledger :=
  {| native := fun _ => (2 * sampleMinGas)%N;
     token := fun _ _ => 0%N |}.

Definition cooperative : Collaborators :=
  {| linkedKeyId := fun _ _ => None;
     signAndSend := fun _ _ _ => Return "0xhash";
     waitForConfirmation := fun _ _ => Return true;
     gasFee := 50000000000000;
     lands := true |}.

End Sweep.

(* ===================================================================== *)
(** ** Merchant directory: src/utils/merchants.ts *)
(* ===================================================================== *)

Module Merchants.

Record PolicyInfo : Type := {
  policyId : string;
  policyName : string;
  effect : string;
  condition : option string;
  consensus : option string;
  notes : option string
}.

Record WalletInfo : Type := {
  walletId : string;
  walletName : string;
  address : string
}.

Record MerchantInfo : Type := {
  subOrganizationId : string;
  subOrganizationName : string;
  wallets : list WalletInfo;
  policies : list PolicyInfo
}.

(** The parts of the Turnkey responses the code reads; a field that may be
    missing is an option. *)
Record ApiWallet : Type := {
  api_walletId : string;
  api_walletName : option string
}.

Record ApiOrganization : Type := {
  api_organizationName : option string;
  api_name : option string
}.

Record ApiAccount : Type := { api_address : option string }.

Record ApiPolicy : Type := {
  api_policyId : option string;
  api_policyName : option string;
  api_effect : option string;
  api_condition : option string;
  api_consensus : option string;
  api_notes : option string
}.

(** The Turnkey calls of [listMerchants]; a thrown error carries its
    [message]. [getTurnkeyClient] and [getTurnkeyClientForSubOrg] of
    src/provider are not among the sources: each makes a client or
    throws. *)
Record Turnkey : Type := {
  getTurnkeyClient : Res string unit;
  getSubOrgIds : string -> Res string (option (list string));
  getTurnkeyClientForSubOrg : string -> Res string unit;
  getWallets : string -> Res string (option (list ApiWallet));
  getOrganization : string -> Res string (option ApiOrganization);
  getWalletAccounts :
    string -> string -> Res string (option (list ApiAccount));
  getPolicies : string -> Res string (option (list ApiPolicy))
}.

Definition or_empty {A : Type} (xs : option (list A)) : list A :=
  match xs with
  | Some l => l
  | None => []
  end.

(** [organization?.organizationName || organization?.name || null]. *)
Definition organizationNameOf (o : option ApiOrganization) : option string :=
  match o with
  | None => None
  | Some org =>
      if truthy (api_organizationName org) then api_organizationName org
      else if truthy (api_name org) then api_name org
      else None
  end.

(** The name derived from the wallets when [getOrganization] gave none. *)
Definition deriveName (subOrgId : string) (ws : list ApiWallet) : string :=
  let originalWallet :=
    match
      find (fun w =>
              truthy (api_walletName w)
              && Js.endsWith " Wallet" (or_else (api_walletName w) ""))
           ws
    with
    | Some w => Some w
    | None => hd_error ws
    end in
  let stripped :=
    match originalWallet with
    | Some w => option_map (Js.replace_first " Wallet" "") (api_walletName w)
    | None => None
    end in
  or_else stripped (Js.take 8 subOrgId ++ "...").

(** One element of the [Promise.all] over the wallets: the first account's
    address, or ["N/A"] when there is none or the call throws. *)
Definition walletInfo (api : Turnkey) (subOrgId : string) (w : ApiWallet)
  : WalletInfo :=
  let primaryAddress :=
    match getWalletAccounts api subOrgId (api_walletId w) with
    | Return accounts =>
        or_else
          match accounts with
          | Some (a :: _) => api_address a
          | _ => None
          end "N/A"
    | Throw _ => "N/A"
    end in
  {| walletId := api_walletId w;
     walletName := or_else (api_walletName w) "Unnamed Wallet";
     address := primaryAddress |}.

Definition policyInfo (p : ApiPolicy) : PolicyInfo :=
  {| policyId := or_else (api_policyId p) "";
     policyName := or_else (api_policyName p) "Unnamed Policy";
     effect := or_else (api_effect p) "UNKNOWN";
     condition := api_condition p;
     consensus := api_consensus p;
     notes := api_notes p |}.

(** The body of the inner [try] for one sub-organization: the merchant and
    the warnings logged on the way. *)
Definition readSubOrg (api : Turnkey) (subOrgId : string)
  : Res string (MerchantInfo * list string) :=
  let* _ := getTurnkeyClientForSubOrg api subOrgId in
  let* walletsResponse := getWallets api subOrgId in
  let ws := or_empty walletsResponse in
  let fromApi :=
    match getOrganization api subOrgId with
    | Return o => organizationNameOf o
    | Throw _ => None
    end in
  let subOrgName :=
    match fromApi with
    | Some (String c n) => String c n
    | _ => deriveName subOrgId ws
    end in
  let merchantWallets := map (walletInfo api subOrgId) ws in
  let policiesAndWarnings :=
    match getPolicies api subOrgId with
    | Return ps => (map policyInfo (or_empty ps), [])
    | Throw message =>
        ([], ["[WARNING] Could not fetch policies for sub-org "
                ++ subOrgId ++ ": " ++ message])
    end in
  Return ({| subOrganizationId := subOrgId;
             subOrganizationName := subOrgName;
             wallets := merchantWallets;
             policies := fst policiesAndWarnings |},
          snd policiesAndWarnings).

(** The [for (const subOrgId of subOrgIds)] loop: merchants pushed and
    lines logged. *)
Fixpoint forEachSubOrg (api : Turnkey) (subOrgIds : list string)
  : list MerchantInfo * list string :=
  match subOrgIds with
  | [] => ([], [])
  | subOrgId :: rest =>
      let later := forEachSubOrg api rest in
      match readSubOrg api subOrgId with
      | Return (merchant, warnings) =>
          (merchant :: fst later, (warnings ++ snd later)%list)
      | Throw message =>
          (fst later,
           ("[WARNING] Could not access sub-org " ++ subOrgId ++ ": "
              ++ message) :: snd later)
      end
  end.

(** [listMerchants]: what it resolves to, or the error it throws, and the
    lines it logs. The parent client is made before the [try] block: an
    error of [getTurnkeyClient] is thrown as it is. *)
Definition listMerchants (api : Turnkey) (organizationId : string)
  : Res string (list MerchantInfo) * list string :=
  match getTurnkeyClient api with
  | Throw e => (Throw e, [])
  | Return _ =>
      match getSubOrgIds api organizationId with
      | Return subOrgsResponse =>
          let done := forEachSubOrg api (or_empty subOrgsResponse) in
          (Return (fst done), snd done)
      | Throw message =>
          (Throw ("Failed to list merchants: "
                    ++ or_else (Some message) "Unknown error"), [])
      end
  end.

(** A sub-organization whose client and wallet list can be read. *)
Definition accessible (api : Turnkey) (subOrgId : string) : bool :=
  negb (throws (getTurnkeyClientForSubOrg api subOrgId))
  && negb (throws (getWallets api subOrgId)).

(** Sample directory service: [sub-a] answers every call, the wallets of
    [sub-b] cannot be listed, and for [sub-c] neither the accounts of its
    wallet nor its policies can be read. *)
Definition sampleApi : Turnkey :=
  {| getTurnkeyClient := Return tt;
     getSubOrgIds := fun _ => Return (Some ["sub-a"; "sub-b"; "sub-c"]);
     getTurnkeyClientForSubOrg := fun _ => Return tt;
     getWallets := fun id =>
       if String.eqb id "sub-b" then Throw "permission denied"
       else Return (Some [ {| api_walletId := id ++ "-w";
                              api_walletName := Some "Acme Wallet" |} ]);
     getOrganization := fun _ => Throw "not found";
     getWalletAccounts := fun id _ =>
       if String.eqb id "sub-c" then Throw "timeout"
       else Return (Some [ {| api_address := Some "0xmerchant" |} ]);
     getPolicies := fun id =>
       if String.eqb id "sub-c" then Throw "timeout"
       else Return (Some []) |}.

(** The same service with the listing of the sub-organizations down. *)
Definition downApi : Turnkey :=
  {| getTurnkeyClient := Return tt;
     getSubOrgIds := fun _ => Throw "";
     getTurnkeyClientForSubOrg := getTurnkeyClientForSubOrg sampleApi;
     getWallets := getWallets sampleApi;
     getOrganization := getOrganization sampleApi;
     getWalletAccounts := getWalletAccounts sampleApi;
     getPolicies := getPolicies sampleApi |}.

(** The same service when the parent client cannot be made. *)
Definition clientlessApi : Turnkey :=
  {| getTurnkeyClient := Throw "Missing API credentials";
     getSubOrgIds := getSubOrgIds sampleApi;
     getTurnkeyClientForSubOrg := getTurnkeyClientForSubOrg sampleApi;
     getWallets := getWallets sampleApi;
     getOrganization := getOrganization sampleApi;
     getWalletAccounts := getWalletAccounts sampleApi;
     getPolicies := getPolicies sampleApi |}.

End Merchants.

(* ===================================================================== *)
(** ** SweepScheduler: src/commands/sweepFunds.ts and scheduledSweep.ts *)
(* ===================================================================== *)

Module Scheduler.

Import Merchants.

(** What [sweepUSDC] resolves to. *)
Record SweepResult : Type := {
  success : bool;
  amount : option string;
  transactionHash : option string;
  error : option string
}.

Definition skipped (message : string) : SweepResult :=
  {| success := false;
     amount := None;
     transactionHash := None;
     error := Some message |}.

(** docs/05-fund-sweeping.md, Error Handling: the results [sweepUSDC]
    returns on its skip and failure paths. *)
Definition noBalance : SweepResult := skipped "No USDC balance to sweep".
Definition belowThreshold : SweepResult := skipped "Balance below threshold".
Definition insufficientGas : SweepResult :=
  skipped "Insufficient ETH for gas fees".
Definition transactionFailed : SweepResult := skipped "Transaction failed".

(** The result of the documented fragments for an outcome of the sweep
    orchestrator; the messages of the other outcomes are not documented. *)
Definition documentedResult (k : Sweep.OutcomeKind) : option SweepResult :=
  match k with
  | Sweep.InsufficientGas => Some insufficientGas
  | Sweep.NoBalance => Some noBalance
  | Sweep.BelowThreshold => Some belowThreshold
  | Sweep.TransactionFailed => Some transactionFailed
  | _ => None
  end.

(** The arguments of one [sweepUSDC] call. *)
Record SweepCall : Type := {
  call_address : string;
  call_subOrganizationId : string;
  call_walletId : string;
  call_treasury : string;
  call_token : string;
  call_network : string
}.

(** A row of [results] in [runSweepFunds]. *)
Record Row : Type := {
  row_merchantName : string;
  row_walletAddress : string;
  row_walletName : string;
  row_success : bool;
  row_amount : option string;
  row_transactionHash : option string;
  row_error : option string
}.

(** The closure variables of [runScheduledSweep]; amounts are kept in token
    base units (the source adds the [parseFloat] of the decimal rendering). *)
Record Totals : Type := {
  iterationCount : nat;
  totalSwept : N;
  totalSuccessful : nat;
  totalSkipped : nat
}.

Record Iteration : Type := {
  iterationSuccessful : nat;
  iterationSwept : N
}.

(** What the scheduled job prints, one constructor per [console.log] (or
    display helper) call of [runSweep] and [shutdown]. *)
Inductive Line : Type :=
| IterationHeader (iteration : nat)
| NoMerchants
| Checking (totalWallets merchants : nat)
| Swept (merchantName walletName : string) (amount : option string)
| ExplorerLink (transactionHash : string)
| Warned (merchantName walletName error : string)
| Crashed (merchantName walletName message : string)
| IterationSummary (iteration successful : nat) (swept : N)
| NothingToSweep (iteration : nat)
| NextSweep
| IterationError (message : string)
| WillRetry
| JobSummary (t : Totals)
| JobStopped.

(** A [runSweep] invocation suspended at one of its [await]s. *)
Inductive Task : Type :=
| AwaitListMerchants
| AwaitSweepUSDC (merchant : MerchantInfo) (wallet : WalletInfo)
    (restWallets : list WalletInfo) (restMerchants : list MerchantInfo)
    (it : Iteration).

(** The process running [runScheduledSweep]: the counters, the suspended
    [runSweep] invocations, whether the interval timer is armed and the
    signal handlers are installed, whether [process.exit] was called, the
    [sweepUSDC] calls made so far and the lines printed. *)
Record Job : Type := {
  totals : Totals;
  tasks : list Task;
  timerArmed : bool;
  handlersInstalled : bool;
  exited : bool;
  calls : list SweepCall;
  output : list Line
}.

(** What the event loop delivers to the process. *)
Inductive Event : Type :=
| TimerFired
| Listed (task : nat) (r : Res string (list MerchantInfo))
| Settled (task : nat) (r : Res string SweepResult)
| Signal.

(** The next wallet with an address: [if (wallet.address === "N/A") continue]. *)
Fixpoint nextWallet (ws : list WalletInfo)
  : option (WalletInfo * list WalletInfo) :=
  match ws with
  | [] => None
  | w :: rest =>
      if String.eqb (address w) "N/A" then nextWallet rest
      else Some (w, rest)
  end.

(** The next [sweepUSDC] call of the two nested [for] loops, from the
    wallets left of the current merchant on. *)
Fixpoint advance (m : MerchantInfo) (ws : list WalletInfo)
  (ms : list MerchantInfo) {struct ms}
  : option (MerchantInfo * WalletInfo * list WalletInfo * list MerchantInfo) :=
  match nextWallet ws with
  | Some (w, rest) => Some (m, w, rest, ms)
  | None =>
      match ms with
      | [] => None
      | m' :: ms' => advance m' (wallets m') ms'
      end
  end.

Definition remove_nth {A : Type} (i : nat) (xs : list A) : list A :=
  (firstn i xs ++ skipn (S i) xs)%list.

Fixpoint replace_nth {A : Type} (i : nat) (x : A) (xs : list A) : list A :=
  match i, xs with
  | _, [] => []
  | O, _ :: rest => x :: rest
  | S k, y :: rest => y :: replace_nth k x rest
  end.

(** [totalSkipped++]. *)
Definition skipCounted (t : Totals) : Totals :=
  {| iterationCount := iterationCount t;
     totalSwept := totalSwept t;
     totalSuccessful := totalSuccessful t;
     totalSkipped := S (totalSkipped t) |}.

Definition zeroTotals : Totals :=
  {| iterationCount := 0;
     totalSwept := 0;
     totalSuccessful := 0;
     totalSkipped := 0 |}.

Definition zeroIteration : Iteration :=
  {| iterationSuccessful := 0; iterationSwept := 0 |}.

Section Engine.

(** The [parseFloat] of an amount, in base units. *)
Variable parseFloat : option string -> N.

(** The treasury address, the token address and the network the run was
    set up with. *)
Variables treasuryAddress usdcTokenAddress network : string.

Definition callFor (merchant : MerchantInfo) (wallet : WalletInfo)
  : SweepCall :=
  {| call_address := address wallet;
     call_subOrganizationId := subOrganizationId merchant;
     call_walletId := walletId wallet;
     call_treasury := treasuryAddress;
     call_token := usdcTokenAddress;
     call_network := network |}.

(** *** The scheduled job *)

(** The body of the per-wallet [try] in [runSweep] once [sweepUSDC] has
    settled: new counters and the lines printed. *)
Definition settle (merchant : MerchantInfo) (wallet : WalletInfo)
  (r : Res string SweepResult) (t : Totals) (it : Iteration)
  : Totals * Iteration * list Line :=
  match r with
  | Return sweepResult =>
      if success sweepResult then
        let amt := parseFloat (amount sweepResult) in
        ({| iterationCount := iterationCount t;
            totalSwept := totalSwept t + amt;
            totalSuccessful := S (totalSuccessful t);
            totalSkipped := totalSkipped t |},
         {| iterationSuccessful := S (iterationSuccessful it);
            iterationSwept := iterationSwept it + amt |},
         (Swept (subOrganizationName merchant) (walletName wallet)
            (amount sweepResult)
          :: match transactionHash sweepResult with
             | Some (String c h) => [ExplorerLink (String c h)]
             | _ => []
             end))
      else
        (skipCounted t,
         it,
         (* Only log errors, not skipped (below threshold) *)
         if truthy (error sweepResult)
            && negb (Js.includes "below threshold"
                       (or_else (error sweepResult) ""))
            && negb (Js.includes "No USDC" (or_else (error sweepResult) ""))
         then [Warned (subOrganizationName merchant) (walletName wallet)
                 (or_else (error sweepResult) "")]
         else [])
  | Throw message =>
      (skipCounted t,
       it,
       [Crashed (subOrganizationName merchant) (walletName wallet) message])
  end.

Definition print (j : Job) (ls : list Line) : Job :=
  {| totals := totals j;
     tasks := tasks j;
     timerArmed := timerArmed j;
     handlersInstalled := handlersInstalled j;
     exited := exited j;
     calls := calls j;
     output := (output j ++ ls)%list |}.

(** A [runSweep] invocation returns. The first one is awaited by
    [runScheduledSweep], which then arms the interval timer and installs
    the signal handlers. *)
Definition finishTask (i : nat) (j : Job) : Job :=
  {| totals := totals j;
     tasks := remove_nth i (tasks j);
     timerArmed := true;
     handlersInstalled := true;
     exited := exited j;
     calls := calls j;
     output := output j |}.

(** The end of the [try] block of [runSweep]: the iteration summary, which
    reads the shared [iterationCount]. *)
Definition summarize (i : nat) (it : Iteration) (j : Job) : Job :=
  finishTask i
    (print j
       [ if (0 <? iterationSuccessful it)%nat
         then IterationSummary (iterationCount (totals j))
                (iterationSuccessful it) (iterationSwept it)
         else NothingToSweep (iterationCount (totals j));
         NextSweep ]).

(** Run task [i] up to its next [await sweepUSDC(...)], or to its end. *)
Definition continue (i : nat) (it : Iteration)
  (next : option (MerchantInfo * WalletInfo
                  * list WalletInfo * list MerchantInfo))
  (j : Job) : Job :=
  match next with
  | Some (m, w, rest, ms) =>
      {| totals := totals j;
         tasks := replace_nth i (AwaitSweepUSDC m w rest ms it) (tasks j);
         timerArmed := timerArmed j;
         handlersInstalled := handlersInstalled j;
         exited := exited j;
         calls := (calls j ++ [callFor m w])%list;
         output := output j |}
  | None => summarize i it j
  end.

(** [runSweep] from its call to its first [await]. *)
Definition startRunSweep (j : Job) : Job :=
  {| totals :=
       {| iterationCount := S (iterationCount (totals j));
          totalSwept := totalSwept (totals j);
          totalSuccessful := totalSuccessful (totals j);
          totalSkipped := totalSkipped (totals j) |};
     tasks := (tasks j ++ [AwaitListMerchants])%list;
     timerArmed := timerArmed j;
     handlersInstalled := handlersInstalled j;
     exited := exited j;
     calls := calls j;
     output :=
       (output j ++ [IterationHeader (S (iterationCount (totals j)))])%list |}.

(** [shutdown]: clear the interval, print the summary, [process.exit(0)]. *)
Definition shutdown (j : Job) : Job :=
  {| totals := totals j;
     tasks := tasks j;
     timerArmed := false;
     handlersInstalled := handlersInstalled j;
     exited := true;
     calls := calls j;
     output := (output j ++ [JobSummary (totals j); JobStopped])%list |}.

(** Without a handler the signal ends the process at once. *)
Definition killed (j : Job) : Job :=
  {| totals := totals j;
     tasks := tasks j;
     timerArmed := timerArmed j;
     handlersInstalled := handlersInstalled j;
     exited := true;
     calls := calls j;
     output := output j |}.

Definition with_totals (t : Totals) (j : Job) : Job :=
  {| totals := t;
     tasks := tasks j;
     timerArmed := timerArmed j;
     handlersInstalled := handlersInstalled j;
     exited := exited j;
     calls := calls j;
     output := output j |}.

(** One turn of the event loop. An exited process does nothing more. *)
Definition step (j : Job) (e : Event) : Job :=
  if exited j then j
  else
    match e with
    | TimerFired =>
        (* setInterval(async () => { await runSweep(); }, intervalMs) *)
        if timerArmed j then startRunSweep j else j
    | Listed i r =>
        match nth_error (tasks j) i with
        | Some AwaitListMerchants =>
            match r with
            | Throw message =>
                finishTask i (print j [IterationError message; WillRetry])
            | Return [] => finishTask i (print j [NoMerchants])
            | Return (m :: ms) =>
                continue i zeroIteration (advance m (wallets m) ms)
                  (print j
                     [Checking
                        (fold_left (fun sum x => sum + length (wallets x))
                           (m :: ms) 0)
                        (length (m :: ms))])
            end
        | _ => j
        end
    | Settled i r =>
        match nth_error (tasks j) i with
        | Some (AwaitSweepUSDC m w rest ms it) =>
            let '(t', it', ls) := settle m w r (totals j) it in
            continue i it' (advance m rest ms)
              (print (with_totals t' j) ls)
        | _ => j
        end
    | Signal => if handlersInstalled j then shutdown j else killed j
    end.

Definition run (j : Job) (es : list Event) : Job := fold_left step es j.

(** [runScheduledSweep] once the job is confirmed: the first [runSweep]
    is called at once and awaited. *)
Definition boot : Job :=
  startRunSweep
    {| totals := zeroTotals;
       tasks := [];
       timerArmed := false;
       handlersInstalled := false;
       exited := false;
       calls := [];
       output := [] |}.

(** *** The one-time sweep *)

Section Batch.

(** [sweepUSDC] against whatever it acts on: the outcome of a call and the
    world it leaves. *)
Variable World : Type.
Variable sweepUSDC : World -> SweepCall -> Res string SweepResult * World.

(** The rows, calls and world of a batch so far. *)
Record Batch : Type := {
  results : list Row;
  attempted : list SweepCall;
  world : World
}.

(** The body of the [for (const wallet of merchant.wallets)] loop. *)
Definition sweepWallet (merchant : MerchantInfo) (b : Batch)
  (wallet : WalletInfo) : Batch :=
  let row (ok : bool) (amt hash err : option string) :=
    {| row_merchantName := subOrganizationName merchant;
       row_walletAddress := address wallet;
       row_walletName := walletName wallet;
       row_success := ok;
       row_amount := amt;
       row_transactionHash := hash;
       row_error := err |} in
  if String.eqb (address wallet) "N/A" then
    {| results :=
         (results b ++ [row false None None (Some "Address not available")])%list;
       attempted := attempted b;
       world := world b |}
  else
    let settled := sweepUSDC (world b) (callFor merchant wallet) in
    {| results :=
         (results b ++
          [match fst settled with
           | Return sweepResult =>
               if success sweepResult
               then row true (amount sweepResult)
                      (transactionHash sweepResult) None
               else row false None None (error sweepResult)
           | Throw message => row false None None (Some message)
           end])%list;
       attempted := (attempted b ++ [callFor merchant wallet])%list;
       world := snd settled |}.

(** The [for (const merchant of merchants)] loop of [runSweepFunds]. *)
Definition sweepMerchant (b : Batch) (merchant : MerchantInfo) : Batch :=
  fold_left (sweepWallet merchant) (wallets merchant) b.

Definition sweepAll (w : World) (merchants : list MerchantInfo) : Batch :=
  fold_left sweepMerchant merchants
    {| results := []; attempted := []; world := w |}.

(** The world after the given calls, made one after the other, each in
    the world the previous one left. *)
Definition worldAfter (w : World) (cs : list SweepCall) : World :=
  fold_left (fun w' c => snd (sweepUSDC w' c)) cs w.

(** The calls a run makes for the given wallets: one for each wallet
    with an address. *)
Definition callsOf (pairs : list (MerchantInfo * WalletInfo))
  : list SweepCall :=
  map (fun mw => callFor (fst mw) (snd mw))
    (filter (fun mw => negb (String.eqb (address (snd mw)) "N/A")) pairs).

Definition rowKey (r : Row) : string * string * string :=
  (row_merchantName r, row_walletAddress r, row_walletName r).

Definition walletKey (mw : MerchantInfo * WalletInfo)
  : string * string * string :=
  (subOrganizationName (fst mw), address (snd mw), walletName (snd mw)).

(** Batch [b] is batch [b0] carried on over the wallets [pairs]: one row
    more for each of them in order, one call more for each that has an
    address, made in order, each in the world the previous one left. *)
Definition Tracks (b0 b : Batch) (pairs : list (MerchantInfo * WalletInfo))
  : Prop :=
  attempted b = (attempted b0 ++ callsOf pairs)%list /\
  world b = worldAfter (world b0) (callsOf pairs) /\
  map rowKey (results b) = (map rowKey (results b0) ++ map walletKey pairs)%list.



(** A field of a result inside a template literal. *)
Definition shown (field : option string) : string :=
  match field with
  | Some text => text
  | None => "undefined"
  end.

(** What the spinner of the per-wallet [try] of [runSweepFunds] is ended
    with: [succeed], [warn] or [fail] and the message. *)
Inductive Spinner : Type :=
| Succeed (message : string)
| Warn (message : string)
| Fail (message : string).

Definition announce (settled : Res string SweepResult) : Spinner :=
  match settled with
  | Return sweepResult =>
      if success sweepResult
      then Succeed ("Swept " ++ shown (amount sweepResult) ++ " USDC")
      else Warn ("Skipped: " ++ shown (error sweepResult))
  | Throw message => Fail ("Failed: " ++ message)
  end.


End Batch.

End Engine.

(** Every wallet of every merchant, in the order of the two loops. *)
Definition allWallets (merchants : list MerchantInfo)
  : list (MerchantInfo * WalletInfo) :=
  flat_map (fun m => map (fun w => (m, w)) (wallets m)) merchants.

(** Sample directory: a merchant with one funded wallet, and one whose
    wallet address could not be read. *)
Definition acmeWallet : WalletInfo :=
  {| walletId := "wallet-1";
     walletName := "Acme Wallet";
     address := "0xmerchant" |}.

Definition acme : MerchantInfo :=
  {| subOrganizationId := "sub-org-1";
     subOrganizationName := "Acme";
     wallets := [acmeWallet];
     policies := [] |}.

Definition unreadWallet : WalletInfo :=
  {| walletId := "wallet-2"; walletName := "Beta Wallet"; address := "N/A" |}.

Definition beta : MerchantInfo :=
  {| subOrganizationId := "sub-org-2";
     subOrganizationName := "Beta";
     wallets := [unreadWallet];
     policies := [] |}.

(** The scheduled job of the samples: Sepolia, USDC with six decimals. *)
Definition sampleParse (amount : option string) : N :=
  if String.eqb (or_else amount "") "0.05" then 50000%N else 0%N.

Definition sampleStep : Job -> Event -> Job :=
  step sampleParse "0xtreasury" "0xusdc" "sepolia".

Definition sampleRun : Job -> list Event -> Job :=
  run sampleParse "0xtreasury" "0xusdc" "sepolia".

(** The first iteration found no merchant and returned: the timer is armed
    and the handlers are installed. *)
Definition idle : Job := sampleRun boot [Listed 0 (Return [])].

(** A timer tick started an iteration, which now awaits the sweep of the
    Acme wallet. *)
Definition sweeping : Job :=
  sampleRun idle [TimerFired; Listed 0 (Return [acme])].

(** A second tick fired while that iteration was still awaiting its
    sweep, and the new iteration reached the same wallet. *)
Definition overlapped : Job :=
  sampleRun sweeping [TimerFired; Listed 1 (Return [acme])].

(** A sweep that went through. *)
Definition sweptResult : SweepResult :=
  {| success := true;
     amount := Some "0.05";
     transactionHash := Some "0xhash";
     error := None |}.


End Scheduler.

(* ===================================================================== *)
(** ** The policy view: the rest of src/commands/viewPolicies.ts *)
(* ===================================================================== *)

Module PolicyView.

Import Merchants.

(** The characters of ASCII text that the pattern [.] does not match: LF
    and CR. *)
Definition is_line_terminator (c : ascii) : bool :=
  Ascii.eqb c "010" || Ascii.eqb c "013".

(** [s.match(/.{1,width}/g)], the list of matches: from the left, each
    match takes as many characters as it can, up to [width] and up to the
    next line terminator; a line terminator is in no match. [cur] is the
    match being read and [room] what it can still take. *)
Fixpoint matchRuns (width : nat) (s cur : string) (room : nat)
  : list string :=
  match s with
  | EmptyString =>
      match cur with
      | EmptyString => []
      | _ => [cur]
      end
  | String c s' =>
      if is_line_terminator c then
        match cur with
        | EmptyString => matchRuns width s' EmptyString width
        | _ => cur :: matchRuns width s' EmptyString width
        end
      else
        match room with
        | O => cur :: matchRuns width s' (String c EmptyString) (width - 1)
        | S r => matchRuns width s' (cur ++ String c EmptyString) r
        end
  end.

(** [policy.notes.match(/.{1,70}/g) || [policy.notes]]. *)
Definition notesLines (notes : string) : list string :=
  match matchRuns 70 notes EmptyString 70 with
  | [] => [notes]
  | lines => lines
  end.

(** A string without its line terminators. *)
Fixpoint withoutTerminators (s : string) : string :=
  match s with
  | EmptyString => EmptyString
  | String c s' =>
      if is_line_terminator c then withoutTerminators s'
      else String c (withoutTerminators s')
  end.

(** Every line but the last has [width] characters. *)
Fixpoint fullButLast (width : nat) (lines : list string) : Prop :=
  match lines with
  | [] => True
  | x :: rest =>
      match rest with
      | [] => True
      | _ => String.length x = width /\ fullButLast width rest
      end
  end.

(** The [chalk] colour of a condition line. *)
Inductive Colour : Type := Cyan | Gray | White.

(** The colour test of the [formattedCondition.forEach] loops. *)
Definition lineColour (line : string) : Colour :=
  if Js.includes "→" line || Js.includes ":" line then
    if Js.startsWith "   " line && Js.includes ":" line then Cyan
    else if Js.includes "→" line then Gray
    else White
  else White.

(** What the policy views print, one constructor per group of lines
    printed together: the three lines that head a merchant, the three
    that head a policy, the three on the source file, the closing summary;
    a heading, a line of a condition, of a consensus or of notes. *)
Inductive ViewLine : Type :=
| VWarning (message : string)
| VInfo (message : string)
| VMerchant (name subOrganizationId : string) (policyCount : nat)
| VPolicy (number : nat) (p : PolicyInfo)
| VHeading (title : string)
| VCondition (c : Colour) (line : string)
| VConditionRaw (condition : string)
| VConsensus (consensus : string)
| VNotes (line : string)
| VSource
| VSummary (merchants withPolicies total : nat).

Section View.

Variable formatAddress : string -> string.

(** The body of [merchant.policies.forEach((policy, policyIdx) => ...)]. *)
Definition policyBlock (policyIdx : nat) (policy : PolicyInfo)
  : list ViewLine :=
  (VPolicy (policyIdx + 1) policy
   :: (match condition policy with
       | Some (String c s) =>
           VHeading "Condition:"
           :: match
                PredicateCodec.formatCondition formatAddress (String c s)
              with
              | [] => [VConditionRaw (String c s)]
              | lines => map (fun l => VCondition (lineColour l) l) lines
              end
       | _ => []
       end
       ++ match consensus policy with
          | Some (String c s) =>
              [VHeading "Consensus:"; VConsensus (String c s)]
          | _ => []
          end
       ++ match notes policy with
          | Some (String c s) =>
              VHeading "Notes:" :: map VNotes (notesLines (String c s))
          | _ => []
          end
       ++ [VSource]))%list.

(** [merchants.reduce((sum, m) => sum + m.policies.length, 0)]. *)
Definition totalPolicies (merchants : list MerchantInfo) : nat :=
  fold_left (fun sum m => sum + length (policies m)) merchants 0.

(** [merchants.filter(m => m.policies.length > 0).length]. *)
Definition merchantsWithPolicies (merchants : list MerchantInfo) : nat :=
  length (filter (fun m => (0 <? length (policies m))%nat) merchants).

(** The body of [merchants.forEach((merchant, merchantIdx) => ...)]:
    merchants without policies are skipped. *)
Definition merchantBlock (merchant : MerchantInfo) : list ViewLine :=
  match policies merchant with
  | [] => []
  | p :: ps =>
      VMerchant (subOrganizationName merchant) (subOrganizationId merchant)
        (length (p :: ps))
      :: Js.flat_mapi policyBlock 0 (p :: ps)
  end.

(** [viewAllPolicies] once the merchants are listed; the warning stands
    for itself and the two hints printed after it. *)
Definition viewAllPolicies (merchants : list MerchantInfo) : list ViewLine :=
  match totalPolicies merchants with
  | O => [VWarning "No policies found across any merchants."]
  | S n =>
      (VInfo ("Total Policies Found: " ++ Js.show_nat (S n))
       :: flat_map merchantBlock merchants
       ++ [VSummary (length merchants) (merchantsWithPolicies merchants)
             (S n)])%list
  end.

End View.

Definition isPolicyLine (l : ViewLine) : bool :=
  match l with
  | VPolicy _ _ => true
  | _ => false
  end.

Definition isRawLine (l : ViewLine) : bool :=
  match l with
  | VConditionRaw _ => true
  | _ => false
  end.

End PolicyView.

(* ===================================================================== *)
(** ** One merchant: [getMerchantDetails] of src/utils/merchants.ts *)
(* ===================================================================== *)

Module MerchantDetails.

Import Merchants.

(** [getMerchantDetails]: the merchant, [None] for [null], or the error
    thrown. The client is made before the [try] block. *)
Definition getMerchantDetails (api : Turnkey) (subOrganizationId : string)
  : Res string (option MerchantInfo) :=
  let* _ := getTurnkeyClientForSubOrg api subOrganizationId in
  try_catch
    (let fromApi :=
       match getOrganization api subOrganizationId with
       | Return o => organizationNameOf o
       | Throw _ => None
       end in
     let* walletsResponse := getWallets api subOrganizationId in
     let ws := or_empty walletsResponse in
     let subOrgName :=
       match fromApi with
       | Some (String c n) => String c n
       | _ => deriveName subOrganizationId ws
       end in
     let merchantWallets := map (walletInfo api subOrganizationId) ws in
     let merchantPolicies :=
       match getPolicies api subOrganizationId with
       | Return ps => map policyInfo (or_empty ps)
       | Throw _ => []
       end in
     Return (Some {| Merchants.subOrganizationId := subOrganizationId;
                     subOrganizationName := subOrgName;
                     wallets := merchantWallets;
                     policies := merchantPolicies |}))
    (fun _ => Return None).

End MerchantDetails.

(* ===================================================================== *)
(** ** Prompts: src/cli/menu.ts and the key prompt of
       src/commands/sendFunds.ts

    A prompt is taken by its answer: [None] when the prompt was cancelled
    and its field is undefined. A validator gives [None] for [true] and
    the message otherwise. *)
(* ===================================================================== *)

Module Cli.

(** [(value) => (value.trim().length > 0 ? true : message)]. *)
Definition validateNonEmpty (message value : string) : option string :=
  if (0 <? String.length (Js.trim value))%nat then None else Some message.

(** [name?.trim() || "Payflow Merchant Demo"]. *)
Definition promptMerchantName (answer : option string) : string :=
  or_else (option_map Js.trim answer) "Payflow Merchant Demo".

(** [subOrgId?.trim() || ""]. *)
Definition promptSubOrgId (answer : option string) : string :=
  or_else (option_map Js.trim answer) "".

(** [walletId?.trim() || ""]. *)
Definition promptWalletId (answer : option string) : string :=
  or_else (option_map Js.trim answer) "".

(** The private key with its [0x]: the [cleaned] of the validator and the
    [normalizedKey] of the command are the same expression. *)
Definition normalizedKey (value : string) : string :=
  if Js.startsWith "0x" (Js.trim value) then Js.trim value
  else "0x" ++ Js.trim value.

(** The [validate] of the private key prompt. *)
Definition validatePrivateKey (value : string) : option string :=
  match value with
  | EmptyString => Some "Private key cannot be empty"
  | _ =>
      if (String.length (Js.trim value) =? 0)%nat
      then Some "Private key cannot be empty"
      else if negb (String.length (normalizedKey value) =? 66)%nat
      then Some "Invalid private key format"
      else None
  end.

End Cli.

(* ===================================================================== *)
(** ** Wallet choice of src/commands/checkBalance.ts *)
(* ===================================================================== *)

Module Balance.

Import Merchants.

Inductive WalletType : Type := TreasuryWallet | MerchantWallet.

Record WalletOption : Type := {
  option_address : string;
  option_label : string;
  option_type : WalletType;
  option_merchantName : option string;
  option_walletName : option string
}.

(** [`${a.slice(0, 6)}...${a.slice(-4)}`]. *)
Definition shortened (a : string) : string :=
  Js.take 6 a ++ "..." ++ Js.slice_last 4 a.

Definition treasuryOption (a : string) : WalletOption :=
  {| option_address := a;
     option_label := "Treasury Wallet (" ++ shortened a ++ ")";
     option_type := TreasuryWallet;
     option_merchantName := None;
     option_walletName := None |}.

Definition merchantOption (merchant : MerchantInfo) (wallet : WalletInfo)
  : WalletOption :=
  {| option_address := address wallet;
     option_label :=
       subOrganizationName merchant ++ " - " ++ walletName wallet
       ++ " (" ++ shortened (address wallet) ++ ")";
     option_type := MerchantWallet;
     option_merchantName := Some (subOrganizationName merchant);
     option_walletName := Some (walletName wallet) |}.

(** The two [forEach] loops pushing onto [walletOptions]. *)
Definition pushWallets (options : list WalletOption)
  (merchant : MerchantInfo) : list WalletOption :=
  fold_left
    (fun acc wallet =>
       if negb (String.eqb (address wallet) "N/A")
       then (acc ++ [merchantOption merchant wallet])%list
       else acc)
    (wallets merchant) options.

(** [walletOptions] of [runCheckBalance] and the warnings printed, from
    what [getOrCreateTreasury] and [listMerchants] gave. *)
Definition walletOptions (treasury : Res string string)
  (listed : Res string (list MerchantInfo))
  : list WalletOption * list string :=
  let first :=
    match treasury with
    | Return a => ([treasuryOption a], [])
    | Throw message =>
        ([], ["[WARNING] Could not load treasury wallet: " ++ message])
    end in
  match listed with
  | Return merchants => (fold_left pushWallets merchants (fst first), snd first)
  | Throw message =>
      (fst first,
       (snd first
        ++ [("[WARNING] Could not load merchant wallets: "
               ++ message)%string])%list)
  end.

(** A merchant option that carries an address. *)
Definition hasAddress (o : WalletOption) : Prop :=
  option_type o = MerchantWallet -> option_address o <> "N/A".

End Balance.

(* ===================================================================== *)
(** ** The summary of src/commands/sweepFunds.ts and the accounts of the
       scheduled job *)
(* ===================================================================== *)

Module Summary.

Import Merchants Scheduler.

(** [results.filter((r) => r.success)] and [results.filter((r) => !r.success)]. *)
Definition successful (results : list Row) : list Row :=
  filter row_success results.

Definition failed (results : list Row) : list Row :=
  filter (fun r => negb (row_success r)) results.

(** The wallets of a directory whose address is not available. *)
Definition unavailable (merchants : list MerchantInfo) : nat :=
  length
    (filter (fun mw => String.eqb (address (snd mw)) "N/A")
       (allWallets merchants)).

(** The [runSweep] invocations that await a [sweepUSDC] call. *)
Definition isSweeping (t : Task) : bool :=
  match t with
  | AwaitSweepUSDC _ _ _ _ _ => true
  | AwaitListMerchants => false
  end.

Definition sweepingWeight (t : Task) : nat :=
  if isSweeping t then 1 else 0.

Definition pendingSweeps (j : Job) : nat :=
  length (filter isSweeping (tasks j)).

(** The sweeps counted so far, as successful or as skipped/failed. *)
Definition counted (t : Totals) : nat :=
  totalSuccessful t + totalSkipped t.

Definition isHeader (l : Line) : bool :=
  match l with
  | IterationHeader _ => true
  | _ => false
  end.

(** Every [sweepUSDC] call made is awaited or counted once, and every
    iteration begun has its header. *)
Definition Accounted (j : Job) : Prop :=
  length (calls j) = counted (totals j) + pendingSweeps j /\
  length (filter isHeader (output j)) = iterationCount (totals j).

End Summary.

(* ===================================================================== *)
(** * Properties *)
(* ===================================================================== *)

Example split_three :
  Js.split " && " "a == 'b' && c &&  d && e" = ["a == 'b'"; "c"; " d"; "e"].
Proof. reflexivity. Qed.

Example match_quoted_second_try :
  Js.match_quoted "k == '" "k == '' k == 'v'" = Some "v".
Proof. reflexivity. Qed.

Example show_nat_12 : Js.show_nat 12 = "12".
Proof. reflexivity. Qed.

(* ===================================================================== *)
(** ** Facts about the string primitives *)
(* ===================================================================== *)

Module JsFacts.

Import Js.

Lemma strip_prefix_sound (p s r : string) :
  strip_prefix p s = Some r -> s = p ++ r.
Proof.
  revert s; induction p as [|a p IH]; intros [|b s]; simpl;
    try congruence.
  destruct (Ascii.eqb a b) eqn:E; [|discriminate].
  apply Ascii.eqb_eq in E; subst b.
  intros H; now rewrite (IH _ H).
Qed.

Lemma strip_prefix_app (p r : string) : strip_prefix p (p ++ r) = Some r.
Proof.
  induction p as [|a p IH]; simpl; [now destruct r|].
  now rewrite Ascii.eqb_refl.
Qed.

Lemma strip_prefix_length (p s r : string) :
  strip_prefix p s = Some r ->
  String.length s = String.length p + String.length r.
Proof.
  intros H; rewrite (strip_prefix_sound _ _ _ H).
  clear H; induction p as [|a p IH]; simpl; congruence.
Qed.

Lemma string_length_app (a b : string) :
  String.length (a ++ b) = String.length a + String.length b.
Proof. induction a as [|c a IH]; simpl; congruence. Qed.

Lemma string_app_assoc (a b c : string) : (a ++ b) ++ c = a ++ b ++ c.
Proof. induction a as [|x a IH]; simpl; congruence. Qed.

(** Fuel beyond the length of the subject changes nothing. *)
Lemma split_fuel_enough (sep : string) :
  sep <> EmptyString ->
  forall f1 f2 s,
    String.length s <= f1 -> String.length s <= f2 ->
    split_fuel f1 sep s = split_fuel f2 sep s.
Proof.
  intros Hsep; induction f1 as [|f1 IH]; intros f2 s H1 H2.
  - destruct s; simpl in H1; [|lia]. now destruct f2.
  - destruct f2 as [|f2]; [destruct s; simpl in H2; [reflexivity|lia]|].
    destruct s as [|c s]; [reflexivity|].
    cbn [split_fuel]. simpl in H1, H2.
    destruct (strip_prefix sep (String c s)) as [rest|] eqn:E.
    + apply strip_prefix_length in E. simpl in E.
      assert (0 < String.length sep) by (destruct sep; simpl; [congruence|lia]).
      f_equal; apply IH; lia.
    + f_equal; apply IH; lia.
Qed.

Lemma split_cons_none (sep : string) (c : ascii) (s : string) :
  strip_prefix sep (String c s) = None ->
  split sep (String c s) = cons_head c (split sep s).
Proof. intros H; unfold split; cbn [String.length split_fuel]; now rewrite H. Qed.

Lemma split_sep (sep rest : string) :
  sep <> EmptyString ->
  split sep (sep ++ rest) = EmptyString :: split sep rest.
Proof.
  intros Hsep; unfold split.
  destruct sep as [|a sep]; [congruence|].
  cbn [append String.length split_fuel].
  change (String a (sep ++ rest)) with (String a sep ++ rest).
  rewrite strip_prefix_app; f_equal.
  apply split_fuel_enough; [congruence| |lia].
  rewrite string_length_app; lia.
Qed.

Lemma split_nonempty (sep s : string) : split sep s <> [].
Proof.
  unfold split; generalize (String.length s) as f; intros f; revert s.
  induction f as [|f IH]; intros s; simpl; [congruence|].
  destruct s as [|c s]; [congruence|].
  destruct (strip_prefix sep (String c s)); [congruence|].
  specialize (IH s); destruct (split_fuel f sep s); simpl; congruence.
Qed.

(** The separator of conditions starts with a blank: a run of characters
    without blanks goes whole into the first piece. *)
Lemma split_glue (h s : string) :
  no_blank h = true ->
  split " && " (h ++ s) = prepend h (split " && " s).
Proof.
  induction h as [|c h IH]; cbn [no_blank append]; intros H.
  - pose proof (split_nonempty " && " s) as Hne.
    now destruct (split " && " s).
  - apply andb_true_iff in H as [Hc Hh].
    apply negb_true_iff in Hc.
    rewrite split_cons_none by (cbn [strip_prefix]; now rewrite Hc).
    rewrite (IH Hh).
    pose proof (split_nonempty " && " s) as Hne.
    now destruct (split " && " s).
Qed.

Lemma trimEnd_snoc (s : string) (c : ascii) :
  is_space c = false ->
  trimEnd (s ++ String c EmptyString) = s ++ String c EmptyString.
Proof.
  intros H; induction s as [|a s IH]; simpl; [now rewrite H|].
  rewrite IH. now destruct s.
Qed.

Lemma trim_id (c d : ascii) (s : string) :
  is_space c = false -> is_space d = false ->
  trim (String c (s ++ String d EmptyString))
  = String c (s ++ String d EmptyString).
Proof.
  intros Hc Hd; unfold trim; cbn [trimStart]; rewrite Hc.
  change (String c (s ++ String d EmptyString))
    with (String c s ++ String d EmptyString).
  now apply trimEnd_snoc.
Qed.

Lemma includes_unfold (sub s : string) :
  includes sub s =
  startsWith sub s ||
  match s with
  | EmptyString => false
  | String _ s' => includes sub s'
  end.
Proof. now destruct s. Qed.

Lemma includes_here (sub r : string) : includes sub (sub ++ r) = true.
Proof.
  rewrite includes_unfold; unfold startsWith.
  now rewrite strip_prefix_app.
Qed.

Lemma match_quoted_unfold (pre s : string) :
  match_quoted pre s =
  match
    match strip_prefix pre s with
    | Some rest =>
        match until_quote rest with
        | Some (String c g) => Some (String c g)
        | _ => None
        end
    | None => None
    end
  with
  | Some g => Some g
  | None =>
      match s with
      | EmptyString => None
      | String _ s' => match_quoted pre s'
      end
  end.
Proof. now destruct s. Qed.

Lemma until_quote_app (h r : string) :
  no_quote h = true -> until_quote (h ++ String "'" r) = Some h.
Proof.
  induction h as [|c h IH]; cbn [no_quote append until_quote];
    [now rewrite Ascii.eqb_refl|].
  intros H; apply andb_true_iff in H as [Hc Hh].
  apply negb_true_iff in Hc; rewrite Hc.
  now rewrite (IH Hh).
Qed.

Lemma match_quoted_here (pre h r : string) :
  no_quote h = true -> h <> EmptyString ->
  match_quoted pre (pre ++ h ++ String "'" r) = Some h.
Proof.
  intros Hq Hne; rewrite match_quoted_unfold, strip_prefix_app.
  rewrite (until_quote_app _ _ Hq).
  destruct h; [congruence|reflexivity].
Qed.

Lemma flat_mapi_incl {A B : Type} (f : nat -> A -> list B) (xs : list A) :
  forall k i x,
    nth_error xs i = Some x -> incl (f (k + i) x) (flat_mapi f k xs).
Proof.
  induction xs as [|y xs IH]; intros k i x H; [now destruct i|].
  destruct i as [|i]; simpl in *.
  - injection H as ->. rewrite Nat.add_0_r. now apply incl_appl, incl_refl.
  - apply incl_appr. replace (k + S i) with (S k + i) by lia. now apply IH.
Qed.

Lemma flat_mapi_length {A B : Type} (f : nat -> A -> list B) (xs : list A) :
  (forall i x, f i x <> []) ->
  forall k, length xs <= length (flat_mapi f k xs).
Proof.
  intros Hf; induction xs as [|y xs IH]; intros k; simpl; [lia|].
  rewrite List.length_app. specialize (IH (S k)). specialize (Hf k y).
  destruct (f k y); [congruence|simpl; lia].
Qed.

End JsFacts.


Module CodecFacts.

Import Js JsFacts PredicateCodec.

Lemma hex_chars (c : ascii) :
  is_hex_lower c = true ->
  Ascii.eqb " " c = false /\ Ascii.eqb c "'" = false
  /\ Ascii.eqb "t" c = false.
Proof.
  destruct c as [[] [] [] [] [] [] [] []]; intros H;
    first [discriminate H | repeat split; reflexivity].
Qed.

Lemma hex_no_blank (h : string) : all_hex_lower h = true -> no_blank h = true.
Proof.
  induction h as [|c h IH]; cbn [all_hex_lower no_blank]; [reflexivity|].
  intros H; apply andb_true_iff in H as [Hc Hh].
  destruct (hex_chars c Hc) as (-> & _ & _). now rewrite IH.
Qed.

Lemma hex_no_quote (h : string) : all_hex_lower h = true -> no_quote h = true.
Proof.
  induction h as [|c h IH]; cbn [all_hex_lower no_quote]; [reflexivity|].
  intros H; apply andb_true_iff in H as [Hc Hh].
  destruct (hex_chars c Hc) as (_ & -> & _). now rewrite IH.
Qed.

Lemma isAddress_inv (s : string) :
  isAddress s = true ->
  exists h, s = "0x" ++ h /\ String.length h = 40 /\ all_hex_lower h = true.
Proof.
  unfold isAddress; destruct (strip_prefix "0x" s) as [h|] eqn:E;
    [|discriminate].
  intros H; apply andb_true_iff in H as [Hl Hh].
  exists h; repeat split; auto using strip_prefix_sound.
  now apply Nat.eqb_eq.
Qed.

(** A field name starting with [et] does not occur in a run of hex digits
    closed by a quote. *)
Lemma includes_hex (sub h : string) :
  all_hex_lower h = true ->
  includes (String "e" (String "t" sub)) (h ++ "'") = false.
Proof.
  induction h as [|c h IH]; [reflexivity|].
  cbn [all_hex_lower append]; intros H.
  apply andb_true_iff in H as [Hc Hh].
  rewrite includes_unfold, (IH Hh), orb_false_r.
  unfold startsWith; cbn [strip_prefix].
  destruct (Ascii.eqb "e" c); [|reflexivity].
  destruct h as [|d h]; [reflexivity|].
  cbn [all_hex_lower] in Hh; apply andb_true_iff in Hh as [Hd _].
  cbn [append strip_prefix].
  destruct (hex_chars d Hd) as (_ & _ & ->). reflexivity.
Qed.


Lemma string_app_nil_r (a : string) : a ++ "" = a.
Proof. induction a as [|c a IH]; simpl; congruence. Qed.

Lemma no_blank_app (a b : string) :
  no_blank a = true -> no_blank b = true -> no_blank (a ++ b) = true.
Proof.
  induction a as [|c a IH]; cbn [append no_blank]; [auto|].
  intros H Hb; apply andb_true_iff in H as [-> Ha]. now rewrite IH.
Qed.

(** A clause [field == 'value'] followed by the conjunction is one piece. *)
Lemma split_clause (field value rest : string) :
  no_blank field = true -> no_blank value = true ->
  split " && " (field ++ " == '" ++ value ++ "'" ++ " && " ++ rest)
  = (field ++ " == '" ++ value ++ "'") :: split " && " rest.
Proof.
  intros Hf Hv.
  rewrite (split_glue _ _ Hf). cbn [append].
  rewrite !split_cons_none by reflexivity.
  rewrite (split_glue _ _ Hv).
  rewrite split_cons_none by reflexivity.
  change (String " " (String "&" (String "&" (String " " rest))))
    with (" && " ++ rest).
  rewrite split_sep by discriminate.
  reflexivity.
Qed.

Lemma split_clause_last (field value : string) :
  no_blank field = true -> no_blank value = true ->
  split " && " (field ++ " == '" ++ value ++ "'")
  = [field ++ " == '" ++ value ++ "'"].
Proof.
  intros Hf Hv.
  rewrite (split_glue _ _ Hf). cbn [append].
  rewrite !split_cons_none by reflexivity.
  rewrite (split_glue _ _ Hv).
  rewrite split_cons_none by reflexivity.
  reflexivity.
Qed.

Lemma trim_clause (c : ascii) (field value : string) :
  is_space c = false ->
  trim (String c field ++ " == '" ++ value ++ "'")
  = String c field ++ " == '" ++ value ++ "'".
Proof.
  intros Hc.
  replace (String c field ++ " == '" ++ value ++ "'")
    with (String c ((field ++ " == '" ++ value) ++ "'"))
    by (cbn [append]; now rewrite !string_app_assoc).
  now apply trim_id.
Qed.

Lemma includes_cons (sub : string) (c : ascii) (s : string) :
  includes sub (String c s) = startsWith sub (String c s) || includes sub s.
Proof. reflexivity. Qed.

Lemma parse_tx_to (v : string) :
  no_quote v = true -> v <> EmptyString ->
  parseClause ("eth.tx.to == '" ++ v ++ "'") = TxTo v.
Proof.
  intros Hq Hne; unfold parseClause.
  change ("eth.tx.to == '" ++ v ++ "'")
    with ("eth.tx.to ==" ++ " '" ++ v ++ "'") at 1.
  rewrite includes_here.
  now rewrite (match_quoted_here "eth.tx.to == '" v "" Hq Hne).
Qed.

Lemma parse_destination (v : string) :
  all_hex_lower v = true -> v <> EmptyString ->
  parseClause ("eth.tx.data[10..74] == '" ++ v ++ "'")
  = TransferDestination v ("0x" ++ slice_last 40 v).
Proof.
  intros Hv Hne; unfold parseClause.
  assert (Hno : forall sub,
             startsWith (String "e" (String "t" sub))
                 ("eth.tx.data[10..74] == '" ++ v ++ "'") = false ->
             includes (String "e" (String "t" sub))
               ("eth.tx.data[10..74] == '" ++ v ++ "'") = false).
  { intros sub Hs. cbn [append] in *.
    rewrite includes_cons, Hs.
    rewrite !includes_cons.
    rewrite (includes_hex sub v Hv).
    reflexivity. }
  rewrite (Hno "h.tx.to ==" eq_refl).
  rewrite (Hno "h.tx.data[2..10] ==" eq_refl).
  replace (includes "eth.tx.data[10..74] =="
             ("eth.tx.data[10..74] == '" ++ v ++ "'")) with true
    by (symmetry; apply (includes_here "eth.tx.data[10..74] ==")).
  now rewrite (match_quoted_here "eth.tx.data[10..74] == '" v ""
                 (hex_no_quote _ Hv) Hne).
Qed.


Lemma all_hex_app (a b : string) :
  all_hex_lower a = true -> all_hex_lower b = true ->
  all_hex_lower (a ++ b) = true.
Proof.
  induction a as [|c a IH]; cbn [append all_hex_lower]; [auto|].
  intros H Hb; apply andb_true_iff in H as [-> Ha]. now rewrite IH.
Qed.

(** The padded slot of a lower-case address [0x h]: 24 zeros and [h]. *)
Lemma padded_slot (d h : string) :
  toLowerCase d = "0x" ++ h -> String.length h = 40 ->
  treasuryAddressPadded d = "000000000000000000000000" ++ h.
Proof.
  intros E L; unfold treasuryAddressPadded, padStart.
  rewrite E; cbn [drop append]. now rewrite L.
Qed.

Lemma slice_last_padded (h : string) :
  String.length h = 40 ->
  slice_last 40 ("000000000000000000000000" ++ h) = h.
Proof.
  intros L; unfold slice_last. rewrite string_length_app, L. reflexivity.
Qed.

Lemma no_quote_app (a b : string) :
  no_quote a = true -> no_quote b = true -> no_quote (a ++ b) = true.
Proof.
  induction a as [|c a IH]; cbn [append no_quote]; [auto|].
  intros H Hb; apply andb_true_iff in H as [-> Ha]. now rewrite IH.
Qed.

Lemma split_three_clauses (f1 v1 f2 v2 f3 v3 : string) :
  no_blank f1 = true -> no_blank v1 = true ->
  no_blank f2 = true -> no_blank v2 = true ->
  no_blank f3 = true -> no_blank v3 = true ->
  split " && "
    ((f1 ++ " == '" ++ v1 ++ "'") ++ " && " ++
     (f2 ++ " == '" ++ v2 ++ "'") ++ " && " ++
     f3 ++ " == '" ++ v3 ++ "'")
  = [ f1 ++ " == '" ++ v1 ++ "'";
      f2 ++ " == '" ++ v2 ++ "'";
      f3 ++ " == '" ++ v3 ++ "'" ].
Proof.
  intros F1 V1 F2 V2 F3 V3.
  replace ((f1 ++ " == '" ++ v1 ++ "'") ++ " && " ++
           (f2 ++ " == '" ++ v2 ++ "'") ++ " && " ++
           f3 ++ " == '" ++ v3 ++ "'")
    with (f1 ++ " == '" ++ v1 ++ "'" ++ " && " ++
          (f2 ++ " == '" ++ v2 ++ "'" ++ " && " ++
           (f3 ++ " == '" ++ v3 ++ "'")))
    by (now rewrite !string_app_assoc).
  rewrite (split_clause _ _ _ F1 V1), (split_clause _ _ _ F2 V2).
  now rewrite (split_clause_last _ _ F3 V3).
Qed.

(** C2 (amended): for all addresses [t] and [d] that are well-formed once
    lower-cased, compiling succeeds and decoding the compiled predicate
    gives back the three clauses in order: the target is [t] in lower case,
    the selector is the fixed ERC-20 transfer selector, and the argument
    clause, stripped of its 12 bytes of left padding, is [d] in lower case.
    Addresses given in lower case are therefore recovered exactly. *)
Theorem decode_compile_lowercased (t d : string) :
  isAddress (toLowerCase t) = true ->
  isAddress (toLowerCase d) = true ->
  exists predicate,
    compile t d = Compiled predicate /\
    map parseClause (clauses predicate)
    = [ TxTo (toLowerCase t);
        FunctionSelector transferSelector;
        TransferDestination (treasuryAddressPadded d) (toLowerCase d) ].
Proof.
  intros Ht Hd. unfold compile; rewrite Ht, Hd; cbn [andb].
  eexists; split; [reflexivity|].
  destruct (isAddress_inv _ Ht) as (ht & Et & Lt & Xt).
  destruct (isAddress_inv _ Hd) as (hd & Ed & Ld & Xd).
  rewrite (padded_slot d hd Ed Ld), Ed.
  set (pad := "000000000000000000000000" ++ hd).
  assert (Xp : all_hex_lower pad = true) by (now apply all_hex_app).
  assert (Np : pad <> EmptyString) by discriminate.
  assert (Bt : no_blank ("0x" ++ ht) = true)
    by (apply (no_blank_app "0x"); auto using hex_no_blank).
  assert (Qt : no_quote ("0x" ++ ht) = true)
    by (apply (no_quote_app "0x"); auto using hex_no_quote).
  unfold condition, clauses; rewrite Et.
  cbn [join].
  change (map parseClause
    (map trim
       (split " && "
          (("eth.tx.to" ++ " == '" ++ ("0x" ++ ht) ++ "'") ++ " && " ++
           ("eth.tx.data[2..10]" ++ " == '" ++ transferSelector ++ "'")
           ++ " && " ++ "eth.tx.data[10..74]" ++ " == '" ++ pad ++ "'")))
    = [TxTo ("0x" ++ ht); FunctionSelector transferSelector;
       TransferDestination pad ("0x" ++ hd)]).
  rewrite split_three_clauses by auto using hex_no_blank.
  cbn [map]. rewrite !trim_clause by reflexivity.
  change (parseClause ("eth.tx.to == '" ++ ("0x" ++ ht) ++ "'")
          :: parseClause ("eth.tx.data[2..10] == 'a9059cbb'")
          :: parseClause ("eth.tx.data[10..74] == '" ++ pad ++ "'") :: nil
    = [TxTo ("0x" ++ ht); FunctionSelector transferSelector;
       TransferDestination pad ("0x" ++ hd)]).
  rewrite (parse_tx_to _ Qt) by discriminate.
  rewrite (parse_destination _ Xp Np).
  unfold pad; rewrite (slice_last_padded _ Ld).
  reflexivity.
Qed.

Lemma decode_compile_lowercased_witness :
  isAddress (toLowerCase sepoliaUsdc) = true /\
  isAddress (toLowerCase sampleTreasury) = true /\
  exists predicate,
    compile sepoliaUsdc sampleTreasury = Compiled predicate /\
    map parseClause (clauses predicate)
    = [ TxTo (toLowerCase sepoliaUsdc);
        FunctionSelector transferSelector;
        TransferDestination (treasuryAddressPadded sampleTreasury)
          (toLowerCase sampleTreasury) ].
Proof.
  split; [reflexivity|split; [reflexivity|]].
  apply (decode_compile_lowercased sepoliaUsdc sampleTreasury); reflexivity.
Defined.

(** C2, as stated, fails on a checksummed token address: the decoded target
    is its lower-case spelling, not the address that was compiled. *)
Lemma decode_compile_not_exact :
  isAddress (toLowerCase sepoliaUsdc) = true /\
  isAddress (toLowerCase sampleTreasury) = true /\
  compile sepoliaUsdc sampleTreasury
  = Compiled
      (condition sepoliaUsdc (treasuryAddressPadded sampleTreasury)) /\
  map parseClause
    (clauses (condition sepoliaUsdc (treasuryAddressPadded sampleTreasury)))
  <> [ TxTo sepoliaUsdc;
       FunctionSelector transferSelector;
       TransferDestination (treasuryAddressPadded sampleTreasury)
         sampleTreasury ].
Proof.
  repeat split; try reflexivity.
  vm_compute; discriminate.
Qed.

Example decode_compile_sample :
  map parseClause
    (clauses (condition sepoliaUsdc (treasuryAddressPadded sampleTreasury)))
  = [ TxTo "0x1c7d4b196cb0c7b01d743fbc6116a902379c7238";
      FunctionSelector "a9059cbb";
      TransferDestination
        "0000000000000000000000001234567890abcdef1234567890abcdef12345678"
        "0x1234567890abcdef1234567890abcdef12345678" ].
Proof. reflexivity. Qed.

Example formatCondition_compiled :
  formatCondition (fun a => a)
    (condition sepoliaUsdc (treasuryAddressPadded sampleTreasury))
  = [ "   1. Transaction Destination:";
      "      eth.tx.to == '0x1c7d4b196cb0c7b01d743fbc6116a902379c7238'";
      "      → Must be to USDC token contract (0x1c7d4b196cb0c7b01d743fbc6116a902379c7238)";
      "   2. Function Selector:";
      "      eth.tx.data[2..10] == 'a9059cbb'";
      "      → ERC-20 transfer() function (0xa9059cbb)";
      "   3. Transfer Destination:";
      "      eth.tx.data[10..74] == '0000000000000000000000001234567890abcdef1234567890abcdef12345678'";
      "      → Treasury address: 0x1234567890abcdef1234567890abcdef12345678" ].
Proof. reflexivity. Qed.

Lemma renderClause_nonempty (fa : string -> string) (idx : nat) (c : Clause) :
  renderClause fa idx c <> [].
Proof. destruct c; discriminate. Qed.


















Example formatCondition_mixed :
  formatCondition (fun a => a) mixedCondition
  = [ "   1. eth.tx.value < 5";
      "   2. Function Selector:";
      "      eth.tx.data[2..10] == 'a9059cbb'";
      "      → ERC-20 transfer() function (0xa9059cbb)";
      "   3. eth.tx.to == ''" ].
Proof. reflexivity. Qed.

End CodecFacts.

(* ===================================================================== *)
(** ** The sweep orchestrator *)
(* ===================================================================== *)

Module SweepFacts.

Import Sweep.

Local Open Scope N_scope.

Ltac sweep_cases c l src ctx dst tok threshold minGas :=
  unfold sweep, skip;
  destruct (N.ltb_spec (native l src) minGas);
  [|destruct (N.eqb_spec (token l tok src) 0);
    [|destruct (N.ltb_spec (token l tok src) threshold);
      [|destruct (signAndSend c ctx (signingIdentifier c ctx src)
                   (transferRequest tok dst (token l tok src)))
          as [?txId|?f];
        cbn [result ledger issued bind try_catch];
        [match goal with
         | |- context [waitForConfirmation c ?t 1] =>
             destruct (waitForConfirmation c t 1) as [[|]|?f]
         end|]]]];
  cbn [result ledger issued kind amount transactionId bind try_catch
       is_skip is_failure].

(** C4 (amended): with gas for the transfer, the outcome is a skip exactly
    when the balance is zero ([NoBalance]) or positive and below the
    threshold ([BelowThreshold]); a positive balance at or above the
    threshold is never skipped; and a skip issues no transaction and
    leaves the ledger as it was. *)
Theorem skip_iff_balance (c : Collaborators) (l : Ledger)
  (src ctx handle dst tok net : string) (threshold minGas : N) :
  minGas <= native l src ->
  exists o,
    result (sweep c l src ctx handle dst tok net threshold minGas) = Return o /\
    (is_skip (kind o) = true <->
     token l tok src = 0 \/ 0 < token l tok src < threshold) /\
    (token l tok src = 0 -> kind o = NoBalance) /\
    (0 < token l tok src < threshold -> kind o = BelowThreshold) /\
    (0 < token l tok src -> threshold <= token l tok src ->
     is_skip (kind o) = false) /\
    (is_skip (kind o) = true ->
     issued (sweep c l src ctx handle dst tok net threshold minGas) = [] /\
     ledger (sweep c l src ctx handle dst tok net threshold minGas) = l).
Proof.
  intros Hgas.
  sweep_cases c l src ctx dst tok threshold minGas;
    try lia;
    eexists; (split; [reflexivity|]); cbn [kind];
    repeat split; intros; try tauto; try lia; try discriminate;
    try (destruct f; discriminate);
    try match goal with
        | H : _ \/ _ |- _ => destruct H; lia
        end.
  all: try (right; lia).
  destruct f; reflexivity.
Qed.

Lemma skip_iff_balance_witness :
  sampleMinGas <= native fundedLedger merchantAddress /\
  exists o,
    result (sweep cooperative fundedLedger merchantAddress "sub-org" "wallet"
              treasuryAddress usdcAddress "sepolia"
              sampleThreshold sampleMinGas) = Return o /\
    (is_skip (kind o) = true <->
     token fundedLedger usdcAddress merchantAddress = 0
     \/ 0 < token fundedLedger usdcAddress merchantAddress < sampleThreshold) /\
    (token fundedLedger usdcAddress merchantAddress = 0 ->
     kind o = NoBalance) /\
    (0 < token fundedLedger usdcAddress merchantAddress < sampleThreshold ->
     kind o = BelowThreshold) /\
    (0 < token fundedLedger usdcAddress merchantAddress ->
     sampleThreshold <= token fundedLedger usdcAddress merchantAddress ->
     is_skip (kind o) = false) /\
    (is_skip (kind o) = true ->
     issued (sweep cooperative fundedLedger merchantAddress "sub-org"
               "wallet" treasuryAddress usdcAddress "sepolia"
               sampleThreshold sampleMinGas) = [] /\
     ledger (sweep cooperative fundedLedger merchantAddress "sub-org"
               "wallet" treasuryAddress usdcAddress "sepolia"
               sampleThreshold sampleMinGas) = fundedLedger).
Proof.
  split; [vm_compute; discriminate|].
  apply (skip_iff_balance cooperative fundedLedger merchantAddress "sub-org"
           "wallet" treasuryAddress usdcAddress "sepolia"
           sampleThreshold sampleMinGas).
  vm_compute; discriminate.
Defined.

(** C4, as stated, fails at a zero threshold: an empty wallet has a
    balance at or above the threshold and gas to spare, yet the outcome
    is the skip [NoBalance]. *)
Lemma skip_at_zero_threshold :
  sampleMinGas <= native emptyLedger merchantAddress /\
  0 <= token emptyLedger usdcAddress merchantAddress /\
  result (sweep cooperative emptyLedger merchantAddress "sub-org" "wallet"
            treasuryAddress usdcAddress "sepolia" 0 sampleMinGas)
  = Return {| kind := NoBalance; amount := None; transactionId := None |} /\
  is_skip NoBalance = true.
Proof. repeat split; try reflexivity; vm_compute; discriminate. Qed.

End SweepFacts.

(* ===================================================================== *)
(** ** The scheduler *)
(* ===================================================================== *)

Module SchedulerFacts.

Import Merchants Scheduler.

Lemma replace_nth_length {A : Type} (i : nat) (x : A) (xs : list A) :
  length (replace_nth i x xs) = length xs.
Proof.
  revert i; induction xs as [|y xs IH]; intros [|i]; simpl; auto.
Qed.

Section Scheduled.

Variable parseFloat : option string -> N.
Variables treasuryAddress usdcTokenAddress network : string.

Lemma nth_error_last {A : Type} (xs : list A) (x : A) :
  nth_error (xs ++ [x]) (length xs) = Some x.
Proof. induction xs as [|y xs IH]; [reflexivity|exact IH]. Qed.

Lemma replace_nth_last {A : Type} (xs : list A) (x y : A) :
  replace_nth (length xs) y (xs ++ [x]) = (xs ++ [y])%list.
Proof.
  induction xs as [|z xs IH]; [reflexivity|].
  cbn [length app replace_nth]. now rewrite IH.
Qed.

(** C1: the timer does not wait for the iteration in flight. When the
    interval timer fires while an iteration awaits the sweep of a wallet,
    nothing is skipped: a new iteration starts at once, and when the
    directory it lists leads to the same wallet it calls [sweepUSDC] for
    that wallet a second time while the first call has not settled. The
    two iterations are in flight together, and what is printed is the
    header and the wallet count of a normal iteration. *)
Theorem tick_overlaps_the_iteration_in_flight (j : Job) (i : nat)
  (m : MerchantInfo) (w : WalletInfo)
  (rest rest' : list WalletInfo) (ms ms' : list MerchantInfo)
  (it : Iteration) (first : MerchantInfo) (others : list MerchantInfo) :
  exited j = false ->
  timerArmed j = true ->
  nth_error (tasks j) i = Some (AwaitSweepUSDC m w rest ms it) ->
  advance first (wallets first) others = Some (m, w, rest', ms') ->
  let j' :=
    run parseFloat treasuryAddress usdcTokenAddress network j
      [TimerFired; Listed (length (tasks j)) (Return (first :: others))] in
  tasks j'
  = (tasks j ++ [AwaitSweepUSDC m w rest' ms' zeroIteration])%list /\
  nth_error (tasks j') i = Some (AwaitSweepUSDC m w rest ms it) /\
  i < length (tasks j) /\
  calls j'
  = (calls j
     ++ [callFor treasuryAddress usdcTokenAddress network m w])%list /\
  totals j'
  = {| iterationCount := S (iterationCount (totals j));
       totalSwept := totalSwept (totals j);
       totalSuccessful := totalSuccessful (totals j);
       totalSkipped := totalSkipped (totals j) |} /\
  output j'
  = (output j
     ++ [ IterationHeader (S (iterationCount (totals j)));
          Checking
            (fold_left (fun sum x => sum + length (wallets x))
               (first :: others) 0)
            (length (first :: others)) ])%list /\
  exited j' = false.
Proof.
  intros He Ht Hn Ha. cbv zeta. unfold run. cbn [fold_left].
  assert (Hs : step parseFloat treasuryAddress usdcTokenAddress network j
                 TimerFired = startRunSweep j)
    by (unfold step; now rewrite He, Ht).
  rewrite Hs. unfold step.
  cbn [startRunSweep exited tasks]. rewrite He, nth_error_last, Ha.
  unfold continue, print.
  cbn [totals tasks timerArmed handlersInstalled exited calls output].
  cbn [startRunSweep tasks calls totals output exited].
  rewrite replace_nth_last.
  assert (Hi : i < length (tasks j))
    by (apply nth_error_Some; congruence).
  repeat split; try assumption.
  - rewrite nth_error_app1 by exact Hi. exact Hn.
  - now rewrite <- app_assoc.
Qed.

End Scheduled.

Section Batch.

Variable parseFloat : option string -> N.
Variables treasuryAddress usdcTokenAddress network : string.
Variable World : Type.
Variable sweepUSDC : World -> SweepCall -> Res string SweepResult * World.

Lemma callsOf_app (ps qs : list (MerchantInfo * WalletInfo)) :
  callsOf treasuryAddress usdcTokenAddress network (ps ++ qs)
  = (callsOf treasuryAddress usdcTokenAddress network ps
     ++ callsOf treasuryAddress usdcTokenAddress network qs)%list.
Proof. unfold callsOf; now rewrite filter_app, map_app. Qed.

Lemma worldAfter_app (w : World) (cs ds : list SweepCall) :
  worldAfter World sweepUSDC w (cs ++ ds)
  = worldAfter World sweepUSDC (worldAfter World sweepUSDC w cs) ds.
Proof. unfold worldAfter; now rewrite fold_left_app. Qed.

Lemma tracks_refl (b : Batch World) :
  Tracks treasuryAddress usdcTokenAddress network World sweepUSDC b b [].
Proof.
  repeat split; cbn; now rewrite ?app_nil_r.
Qed.

(** One turn of the wallet loop, whatever [sweepUSDC] does. *)
Lemma tracks_wallet (b0 b : Batch World)
  (ps : list (MerchantInfo * WalletInfo)) (m : MerchantInfo)
  (w : WalletInfo) :
  Tracks treasuryAddress usdcTokenAddress network World sweepUSDC b0 b ps ->
  Tracks treasuryAddress usdcTokenAddress network World sweepUSDC b0
    (sweepWallet treasuryAddress usdcTokenAddress network World sweepUSDC
       m b w)
    (ps ++ [(m, w)]).
Proof.
  intros (Ha & Hw & Hr); unfold Tracks.
  rewrite callsOf_app, worldAfter_app, map_app, !app_assoc, <- Ha, <- Hw, <- Hr.
  unfold sweepWallet, callsOf; cbn [filter map fst snd].
  destruct (String.eqb (address w) "N/A"); cbn [negb map worldAfter fold_left];
    cbn [results attempted world]; rewrite ?app_nil_r, map_app.
  - repeat split.
  - repeat split.
    destruct (sweepUSDC (world World b)
                (callFor treasuryAddress usdcTokenAddress network m w))
      as [[r|message] w']; cbn [fst]; [destruct (success r)|]; reflexivity.
Qed.

Lemma tracks_wallets (m : MerchantInfo) (ws : list WalletInfo) :
  forall (b0 b : Batch World) (ps : list (MerchantInfo * WalletInfo)),
    Tracks treasuryAddress usdcTokenAddress network World sweepUSDC b0 b ps ->
    Tracks treasuryAddress usdcTokenAddress network World sweepUSDC b0
      (fold_left
         (sweepWallet treasuryAddress usdcTokenAddress network World
            sweepUSDC m) ws b)
      (ps ++ map (fun w => (m, w)) ws).
Proof.
  induction ws as [|w ws IH]; intros b0 b ps H; cbn [fold_left map].
  - now rewrite app_nil_r.
  - change ((m, w) :: map (fun w0 => (m, w0)) ws)
      with ([(m, w)] ++ map (fun w0 => (m, w0)) ws)%list.
    rewrite app_assoc. apply IH, tracks_wallet, H.
Qed.

Lemma tracks_merchants (ms : list MerchantInfo) :
  forall (b0 b : Batch World) (ps : list (MerchantInfo * WalletInfo)),
    Tracks treasuryAddress usdcTokenAddress network World sweepUSDC b0 b ps ->
    Tracks treasuryAddress usdcTokenAddress network World sweepUSDC b0
      (fold_left
         (sweepMerchant treasuryAddress usdcTokenAddress network World
            sweepUSDC) ms b)
      (ps ++ allWallets ms).
Proof.
  induction ms as [|m ms IH]; intros b0 b ps H;
    cbn [fold_left allWallets flat_map].
  - now rewrite app_nil_r.
  - rewrite app_assoc. apply IH. unfold sweepMerchant.
    apply tracks_wallets, H.
Qed.







(** C8 (amended): the callers tell a successful sweep from every other
    result, and no skip from a failure. In the scheduled job every result
    that is not a success, whatever its error, adds one to the single
    skipped/failed counter and changes nothing else; it is printed as a
    warning unless it has no error text or its error text contains
    ["below threshold"] or ["No USDC"], so of the documented results the
    empty and the low balance are silent while the gas shortage is
    printed like the failed transaction. A thrown error is counted the
    same way and printed as an error. In the one-time command every
    result that is not a success is announced as skipped and recorded as
    a failed row with its error, and a thrown error is announced as
    failed and recorded as a failed row with its message. *)
Theorem skips_and_failures_share_a_counter (merchant : MerchantInfo)
  (wallet : WalletInfo) (t : Totals) (it : Iteration) (b : Batch World) :
  (forall r : SweepResult,
     success r = false ->
     fst (settle parseFloat merchant wallet (Return r) t it)
     = ({| iterationCount := iterationCount t;
           totalSwept := totalSwept t;
           totalSuccessful := totalSuccessful t;
           totalSkipped := S (totalSkipped t) |}, it) /\
     (snd (settle parseFloat merchant wallet (Return r) t it) = [] <->
      error r = None \/ error r = Some EmptyString \/
      exists text,
        error r = Some text /\
        (Js.includes "below threshold" text = true \/
         Js.includes "No USDC" text = true)) /\
     (forall text,
        error r = Some text -> text <> EmptyString ->
        Js.includes "below threshold" text = false ->
        Js.includes "No USDC" text = false ->
        snd (settle parseFloat merchant wallet (Return r) t it)
        = [Warned (subOrganizationName merchant) (walletName wallet) text]) /\
     announce (Return r) = Warn ("Skipped: " ++ shown (error r)) /\
     (String.eqb (address wallet) "N/A" = false ->
      fst (sweepUSDC (world World b)
             (callFor treasuryAddress usdcTokenAddress network
                merchant wallet))
      = Return r ->
      results World
        (sweepWallet treasuryAddress usdcTokenAddress network World
           sweepUSDC merchant b wallet)
      = (results World b
         ++ [ {| row_merchantName := subOrganizationName merchant;
                 row_walletAddress := address wallet;
                 row_walletName := walletName wallet;
                 row_success := false;
                 row_amount := None;
                 row_transactionHash := None;
                 row_error := error r |} ])%list)) /\
  (forall message,
     settle parseFloat merchant wallet (Throw message) t it
     = ({| iterationCount := iterationCount t;
           totalSwept := totalSwept t;
           totalSuccessful := totalSuccessful t;
           totalSkipped := S (totalSkipped t) |}, it,
        [Crashed (subOrganizationName merchant) (walletName wallet)
           message]) /\
     announce (Throw message) = Fail ("Failed: " ++ message) /\
     (String.eqb (address wallet) "N/A" = false ->
      fst (sweepUSDC (world World b)
             (callFor treasuryAddress usdcTokenAddress network
                merchant wallet))
      = Throw message ->
      results World
        (sweepWallet treasuryAddress usdcTokenAddress network World
           sweepUSDC merchant b wallet)
      = (results World b
         ++ [ {| row_merchantName := subOrganizationName merchant;
                 row_walletAddress := address wallet;
                 row_walletName := walletName wallet;
                 row_success := false;
                 row_amount := None;
                 row_transactionHash := None;
                 row_error := Some message |} ])%list)) /\
  snd (settle parseFloat merchant wallet (Return noBalance) t it) = [] /\
  snd (settle parseFloat merchant wallet (Return belowThreshold) t it) = [] /\
  snd (settle parseFloat merchant wallet (Return insufficientGas) t it)
  = [Warned (subOrganizationName merchant) (walletName wallet)
       "Insufficient ETH for gas fees"] /\
  snd (settle parseFloat merchant wallet (Return transactionFailed) t it)
  = [Warned (subOrganizationName merchant) (walletName wallet)
       "Transaction failed"].
Proof.
  split; [|split; [intros message; repeat split|repeat split]].
  2: { intros Ha Hc. unfold sweepWallet. rewrite Ha, Hc. reflexivity. }
  intros r Hs. unfold settle, announce. rewrite Hs.
  cbn [fst snd]. split; [reflexivity|].
  split; [|split; [|split; [reflexivity|]]].
  3: { intros Ha Hc. unfold sweepWallet. rewrite Ha, Hc, Hs. reflexivity. }
  - destruct (error r) as [[|c text]|]; cbn [truthy or_else andb].
    + split; [intros _; right; now left|reflexivity].
    + destruct (Js.includes "below threshold" (String c text)) eqn:B;
        cbn [negb andb].
      * split; [intros _|reflexivity].
        right; right. exists (String c text). split; [reflexivity|now left].
      * destruct (Js.includes "No USDC" (String c text)) eqn:U;
          cbn [negb].
        -- split; [intros _|reflexivity].
           right; right. exists (String c text).
           split; [reflexivity|now right].
        -- split; [discriminate|].
           intros [H|[H|(text' & H & [H'|H'])]]; try discriminate H;
             injection H as <-; congruence.
    + split; [intros _; now left|reflexivity].
  - intros text He Hne Hb Hu. rewrite He.
    destruct text as [|c text]; [congruence|].
    cbn [truthy or_else andb]. now rewrite Hb, Hu.
Qed.

End Batch.


Example batch_goes_on_after_a_throw :
  map row_error
    (results nat
       (sweepAll "0xtreasury" "0xusdc" "sepolia" nat
          (fun w c =>
             (if String.eqb (call_walletId c) "wallet-1"
              then Throw "signer unreachable"
              else Return noBalance, S w))
          0 [acme; beta; acme]))
  = [ Some "signer unreachable";
      Some "Address not available";
      Some "signer unreachable" ].
Proof. reflexivity. Qed.

Lemma tick_overlaps_the_iteration_in_flight_witness :
  exited sweeping = false /\ timerArmed sweeping = true /\
  tasks sweeping = [AwaitSweepUSDC acme acmeWallet [] [] zeroIteration] /\
  tasks (sampleRun sweeping [TimerFired; Listed 1 (Return [acme])])
  = [ AwaitSweepUSDC acme acmeWallet [] [] zeroIteration;
      AwaitSweepUSDC acme acmeWallet [] [] zeroIteration ].
Proof.
  split; [reflexivity|split; [reflexivity|split; [reflexivity|]]].
  exact (proj1 (tick_overlaps_the_iteration_in_flight
                  sampleParse "0xtreasury" "0xusdc" "sepolia"
                  sweeping 0 acme acmeWallet [] [] [] [] zeroIteration
                  acme [] eq_refl eq_refl eq_refl eq_refl)).
Defined.

(** From the start of the job: the first iteration finds no merchant, a
    tick starts the second, and the next tick comes while the second
    still awaits its sweep; both end up awaiting a sweep of the same
    wallet. *)
Example overlapping_iterations :
  tasks sweeping = [AwaitSweepUSDC acme acmeWallet [] [] zeroIteration] /\
  tasks overlapped
  = [ AwaitSweepUSDC acme acmeWallet [] [] zeroIteration;
      AwaitSweepUSDC acme acmeWallet [] [] zeroIteration ] /\
  map call_address (calls overlapped) = ["0xmerchant"; "0xmerchant"] /\
  exited overlapped = false.
Proof. repeat split. Qed.

(** C8, as stated, fails: the result of an [InsufficientGas] skip is
    printed by the scheduled job as a warning. *)
Lemma insufficient_gas_is_logged :
  Sweep.is_skip Sweep.InsufficientGas = true /\
  documentedResult Sweep.InsufficientGas = Some insufficientGas /\
  snd (settle sampleParse acme acmeWallet (Return insufficientGas)
         zeroTotals zeroIteration)
  = [Warned "Acme" "Acme Wallet" "Insufficient ETH for gas fees"].
Proof. repeat split. Qed.

(** C6: the stop signal arrives while an iteration awaits the sweep of the
    Acme wallet. [shutdown] prints the cumulative summary and exits at
    once: the iteration is still suspended at its [await], and the result
    of the sweep, when it comes, is recorded nowhere. *)
Theorem shutdown_abandons_inflight :
  tasks sweeping = [AwaitSweepUSDC acme acmeWallet [] [] zeroIteration] /\
  sampleStep sweeping Signal = shutdown sweeping /\
  exited (sampleStep sweeping Signal) = true /\
  tasks (sampleStep sweeping Signal)
  = [AwaitSweepUSDC acme acmeWallet [] [] zeroIteration] /\
  output (sampleStep sweeping Signal)
  = (output sweeping ++ [JobSummary (totals sweeping); JobStopped])%list /\
  sampleRun sweeping [Signal; Settled 0 (Return sweptResult)]
  = sampleStep sweeping Signal /\
  totalSwept
    (totals (sampleRun sweeping [Settled 0 (Return sweptResult); Signal]))
  = 50000%N /\
  totalSwept
    (totals (sampleRun sweeping [Signal; Settled 0 (Return sweptResult)]))
  = 0%N.
Proof. repeat split. Qed.

End SchedulerFacts.

(* ===================================================================== *)
(** ** The merchant directory *)
(* ===================================================================== *)

Module MerchantsFacts.

Import Merchants.

(** What reading one sub-organization comes to. *)
Lemma readSubOrg_cases (api : Turnkey) (subOrgId : string) :
  (accessible api subOrgId = true /\
   exists m warnings ws,
     readSubOrg api subOrgId = Return (m, warnings) /\
     subOrganizationId m = subOrgId /\
     getWallets api subOrgId = Return ws /\
     wallets m = map (walletInfo api subOrgId) (or_empty ws) /\
     (throws (getPolicies api subOrgId) = true -> policies m = []))
  \/
  (accessible api subOrgId = false /\
   exists message, readSubOrg api subOrgId = Throw message).
Proof.
  unfold readSubOrg, accessible.
  destruct (getTurnkeyClientForSubOrg api subOrgId) as [[]|e]; cbn;
    [|right; eauto].
  destruct (getWallets api subOrgId) as [ws|e]; cbn; [|right; eauto].
  left; split; [reflexivity|].
  do 3 eexists; split; [reflexivity|]; cbn.
  repeat split.
  destruct (getPolicies api subOrgId); [discriminate|reflexivity].
Qed.

Lemma forEachSubOrg_spec (api : Turnkey) (subOrgIds : list string) :
  map subOrganizationId (fst (forEachSubOrg api subOrgIds))
  = filter (accessible api) subOrgIds /\
  forall m,
    In m (fst (forEachSubOrg api subOrgIds)) ->
    exists ws,
      getWallets api (subOrganizationId m) = Return ws /\
      wallets m = map (walletInfo api (subOrganizationId m)) (or_empty ws) /\
      (throws (getPolicies api (subOrganizationId m)) = true ->
       policies m = []).
Proof.
  induction subOrgIds as [|id ids [IHm IHw]]; cbn [forEachSubOrg filter].
  - split; [reflexivity|intros m []].
  - destruct (readSubOrg_cases api id)
      as [(Ha & m & warnings & ws & -> & Hid & Hws & Hw & Hp)
         |(Ha & message & ->)];
      rewrite Ha; cbn [fst map].
    + split; [now rewrite Hid, IHm|].
      intros m' [<-|Hin]; [|now apply IHw].
      rewrite Hid. now exists ws.
    + split; [exact IHm|exact IHw].
Qed.

(** What [listMerchants] returned was read in its loop. *)
Lemma listMerchants_returned (api : Turnkey) (organizationId : string)
  (merchants : list MerchantInfo) :
  fst (listMerchants api organizationId) = Return merchants ->
  exists subOrgIds,
    getSubOrgIds api organizationId = Return subOrgIds /\
    merchants = fst (forEachSubOrg api (or_empty subOrgIds)).
Proof.
  unfold listMerchants.
  destruct (getTurnkeyClient api); [|discriminate].
  destruct (getSubOrgIds api organizationId) as [ids|e]; [|discriminate].
  cbn [fst]. intros H; injection H as <-. now exists ids.
Qed.

(** C10 (amended): [listMerchants] throws in two cases only: when the
    parent client cannot be made, with that error as it is, and when the
    listing of the sub-organization identifiers throws, with the wrapped
    message. Otherwise it returns, in order, one merchant for each
    sub-organization whose client and wallet list could be read; the
    others are left out. A merchant whose policies could not be read has
    an empty policy list, and a wallet whose accounts could not be read
    has the address ["N/A"]. *)
Theorem listMerchants_throws_only_before_the_loop (api : Turnkey)
  (organizationId : string) :
  match getTurnkeyClient api with
  | Throw e => fst (listMerchants api organizationId) = Throw e
  | Return _ =>
      match getSubOrgIds api organizationId with
      | Throw message =>
          fst (listMerchants api organizationId)
          = Throw ("Failed to list merchants: "
                     ++ or_else (Some message) "Unknown error")
      | Return subOrgIds =>
          exists merchants,
            fst (listMerchants api organizationId) = Return merchants /\
            map subOrganizationId merchants
            = filter (accessible api) (or_empty subOrgIds) /\
            (forall m,
               In m merchants ->
               exists ws,
                 getWallets api (subOrganizationId m) = Return ws /\
                 wallets m
                 = map (walletInfo api (subOrganizationId m))
                     (or_empty ws) /\
                 (throws (getPolicies api (subOrganizationId m)) = true ->
                  policies m = [])) /\
            (forall subOrgId w,
               throws (getWalletAccounts api subOrgId (api_walletId w))
               = true ->
               address (walletInfo api subOrgId w) = "N/A")
      end
  end.
Proof.
  unfold listMerchants.
  destruct (getTurnkeyClient api) as [[]|e]; [|reflexivity].
  destruct (getSubOrgIds api organizationId) as [ids|message];
    [|reflexivity].
  destruct (forEachSubOrg_spec api (or_empty ids)) as [Hm Hw].
  eexists; split; [reflexivity|]; cbn [fst].
  split; [exact Hm|split; [exact Hw|]].
  intros subOrgId w; unfold walletInfo; cbn [address].
  now destruct (getWalletAccounts api subOrgId (api_walletId w)).
Qed.

(** C10, as stated, fails when the parent client cannot be made: the
    listing of the sub-organization identifiers would answer, it is never
    asked, and [listMerchants] throws the error of [getTurnkeyClient]. *)
Lemma listMerchants_throws_without_client :
  getSubOrgIds clientlessApi "org"
  = Return (Some ["sub-a"; "sub-b"; "sub-c"]) /\
  listMerchants clientlessApi "org"
  = (Throw "Missing API credentials", []).
Proof. split; reflexivity. Qed.

Example listMerchants_sample :
  listMerchants sampleApi "org"
  = (Return
       [ {| subOrganizationId := "sub-a";
            subOrganizationName := "Acme";
            wallets := [ {| walletId := "sub-a-w";
                            walletName := "Acme Wallet";
                            address := "0xmerchant" |} ];
            policies := [] |};
         {| subOrganizationId := "sub-c";
            subOrganizationName := "Acme";
            wallets := [ {| walletId := "sub-c-w";
                            walletName := "Acme Wallet";
                            address := "N/A" |} ];
            policies := [] |} ],
     [ "[WARNING] Could not access sub-org sub-b: permission denied";
       "[WARNING] Could not fetch policies for sub-org sub-c: timeout" ]).
Proof. reflexivity. Qed.

Example listMerchants_down :
  listMerchants downApi "org"
  = (Throw "Failed to list merchants: Unknown error", []).
Proof. reflexivity. Qed.

End MerchantsFacts.

(* ===================================================================== *)
(** ** The policy view *)
(* ===================================================================== *)

Module PolicyViewFacts.

Import Js JsFacts PredicateCodec Merchants PolicyView.

Lemma clauses_nonempty (c : string) : clauses c <> [].
Proof.
  unfold clauses. pose proof (split_nonempty " && " c) as H.
  destruct (split " && " c); [congruence|discriminate].
Qed.

(** A condition that is not empty gives at least one line. *)
Lemma formatCondition_some_line (formatAddress : string -> string)
  (a : ascii) (c : string) :
  formatCondition formatAddress (String a c) <> [].
Proof.
  cbn [formatCondition]. intros H.
  pose proof (flat_mapi_length
                (fun idx part =>
                   renderClause formatAddress idx (parseClause part))
                (clauses (String a c))
                (fun i x => CodecFacts.renderClause_nonempty _ _ _) 0) as L.
  rewrite H in L. pose proof (clauses_nonempty (String a c)) as N.
  destruct (clauses (String a c)); [congruence|simpl in L; lia].
Qed.

(** X1: [formatCondition] gives no line at all only for the empty
    condition; for every other condition it gives at least one line, so the
    callers' fallback to the raw condition is never taken. *)
Theorem formatCondition_empty_iff (formatAddress : string -> string)
  (c : string) :
  formatCondition formatAddress c = [] <-> c = EmptyString.
Proof.
  split; [|intros ->; reflexivity].
  destruct c as [|a c]; [reflexivity|]. intros H.
  now apply formatCondition_some_line in H.
Qed.

Lemma concat_cons (x : string) (xs : list string) :
  String.concat "" (x :: xs) = x ++ String.concat "" xs.
Proof.
  destruct xs; cbn [String.concat]; [|reflexivity].
  now rewrite CodecFacts.string_app_nil_r.
Qed.

Lemma matchRuns_concat (w : nat) (s : string) :
  forall cur room,
    String.concat "" (matchRuns w s cur room) = cur ++ withoutTerminators s.
Proof.
  induction s as [|c s IH]; intros cur room;
    cbn [matchRuns withoutTerminators].
  - destruct cur; [reflexivity|].
    cbn [String.concat]. now rewrite CodecFacts.string_app_nil_r.
  - destruct (is_line_terminator c).
    + destruct cur; [apply IH|]. rewrite concat_cons, IH. reflexivity.
    + destruct room.
      * rewrite concat_cons, IH. reflexivity.
      * rewrite IH, string_app_assoc. reflexivity.
Qed.

Lemma matchRuns_bounds (w : nat) (s : string) :
  1 <= w ->
  forall cur room,
    String.length cur + room = w ->
    Forall (fun l => 1 <= String.length l <= w) (matchRuns w s cur room).
Proof.
  intros Hw; induction s as [|c s IH]; intros cur room Hinv;
    cbn [matchRuns].
  - destruct cur; constructor; [simpl in *; lia|constructor].
  - destruct (is_line_terminator c).
    + destruct cur; [apply IH; simpl; lia|].
      constructor; [simpl in *; lia|apply IH; simpl; lia].
    + destruct room.
      * constructor; [lia|apply IH; simpl; lia].
      * apply IH. rewrite string_length_app; simpl; lia.
Qed.

Lemma matchRuns_full (w : nat) (s : string) :
  1 <= w -> withoutTerminators s = s ->
  forall cur room,
    String.length cur + room = w ->
    fullButLast w (matchRuns w s cur room) /\
    (cur <> EmptyString -> matchRuns w s cur room <> []).
Proof.
  intros Hw; induction s as [|c s IH]; intros Hs cur room Hinv;
    cbn [matchRuns].
  - destruct cur; split; simpl; auto; congruence.
  - cbn [withoutTerminators] in Hs.
    destruct (is_line_terminator c) eqn:E.
    + exfalso. assert (L : String.length (withoutTerminators s)
                           <= String.length s).
      { clear. induction s as [|a s IH]; simpl; [lia|].
        destruct (is_line_terminator a); simpl; lia. }
      rewrite Hs in L; simpl in L; lia.
    + injection Hs as Hs. destruct room.
      * destruct (IH Hs (String c EmptyString) (w - 1)) as [F N];
          [simpl; lia|].
        split; [|congruence]. cbn [fullButLast].
        destruct (matchRuns w s (String c EmptyString) (w - 1));
          [exfalso; apply N; congruence|].
        split; [lia|exact F].
      * destruct (IH Hs (cur ++ String c EmptyString) room) as [F N];
          [rewrite string_length_app; simpl; lia|].
        split; [exact F|]. intros _. apply N. now destruct cur.
Qed.

(** X2: notes without line breaks are cut into lines that, put together
    again, give the notes back; every line has between 1 and 70 characters
    and every line but the last exactly 70. *)
Theorem notesLines_cut (notes : string) :
  notes <> EmptyString -> withoutTerminators notes = notes ->
  String.concat "" (notesLines notes) = notes /\
  Forall (fun l => 1 <= String.length l <= 70) (notesLines notes) /\
  fullButLast 70 (notesLines notes).
Proof.
  intros Hne Hs; unfold notesLines.
  pose proof (matchRuns_concat 70 notes EmptyString 70) as C.
  pose proof (matchRuns_bounds 70 notes ltac:(lia) EmptyString 70 eq_refl) as B.
  pose proof (matchRuns_full 70 notes ltac:(lia) Hs EmptyString 70 eq_refl)
    as [F _].
  rewrite Hs in C.
  destruct (matchRuns 70 notes EmptyString 70) as [|l ls] eqn:E.
  - cbn in C. congruence.
  - repeat split; assumption.
Qed.

Lemma notesLines_cut_witness :
  "Only USDC transfers to the treasury wallet" <> EmptyString /\
  String.concat ""
    (notesLines "Only USDC transfers to the treasury wallet")
  = "Only USDC transfers to the treasury wallet".
Proof.
  assert (H : "Only USDC transfers to the treasury wallet" <> EmptyString)
    by discriminate.
  split; [exact H|].
  exact (proj1 (notesLines_cut _ H eq_refl)).
Defined.

Lemma includes_cons_step (sub : string) (c : ascii) (s : string) :
  includes sub (String c s) = startsWith sub (String c s) || includes sub s.
Proof. reflexivity. Qed.

Lemma startsWith_app (sub a b : string) :
  startsWith sub a = true -> startsWith sub (a ++ b) = true.
Proof.
  unfold startsWith.
  destruct (strip_prefix sub a) as [r|] eqn:E; [intros _|discriminate].
  rewrite (strip_prefix_sound _ _ _ E), string_app_assoc.
  now rewrite strip_prefix_app.
Qed.

Lemma includes_app_l (sub a b : string) :
  includes sub a = true -> includes sub (a ++ b) = true.
Proof.
  induction a as [|c a IH]; intros H.
  - rewrite includes_unfold, orb_false_r in H.
    rewrite includes_unfold.
    now rewrite (startsWith_app sub EmptyString b H).
  - rewrite includes_cons_step in H. cbn [append].
    rewrite includes_cons_step.
    apply orb_true_iff in H as [H|H].
    + change (String c (a ++ b)) with (String c a ++ b).
      now rewrite (startsWith_app _ _ b H).
    + now rewrite (IH H), orb_true_r.
Qed.

Lemma includes_app_r (sub a b : string) :
  includes sub b = true -> includes sub (a ++ b) = true.
Proof.
  intros H; induction a as [|c a IH]; [exact H|].
  cbn [append]. rewrite includes_cons_step, IH. apply orb_true_r.
Qed.

(** X3: a condition line that starts with three blanks and carries a
    colon is printed in the header colour. That covers the numbered header
    of every recognised clause, and also the description line of the
    treasury address, which is therefore not printed in the colour of the
    other descriptions. *)
Theorem colon_lines_are_cyan (formatAddress : string -> string)
  (idx : nat) (text paddedAddress actualAddress : string) :
  (includes ":" text = true -> lineColour (numbered idx text) = Cyan) /\
  lineColour (numbered idx "Transaction Destination:") = Cyan /\
  lineColour (numbered idx "Function Selector:") = Cyan /\
  lineColour (numbered idx "Transfer Destination:") = Cyan /\
  lineColour
    (nth 2 (renderClause formatAddress idx
              (TransferDestination paddedAddress actualAddress))
       EmptyString)
  = Cyan.
Proof.
  assert (G : forall t, includes ":" t = true ->
                        lineColour (numbered idx t) = Cyan).
  { intros t Ht. unfold lineColour, numbered.
    assert (C : includes ":" ("   " ++ show_nat (idx + 1) ++ ". " ++ t) = true)
      by (apply includes_app_r, includes_app_r, includes_app_r, Ht).
    rewrite C, orb_true_r.
    now rewrite (startsWith_app "   " "   "
                   (show_nat (idx + 1) ++ ". " ++ t) eq_refl). }
  split; [exact (G text)|].
  repeat split; apply G; reflexivity.
Qed.

Lemma colon_lines_are_cyan_witness :
  includes ":" "eth.tx.value: any" = true /\
  lineColour (numbered 0 "eth.tx.value: any") = Cyan.
Proof.
  split; [reflexivity|].
  exact (proj1 (colon_lines_are_cyan (fun a => a) 0 "eth.tx.value: any"
                  EmptyString EmptyString) eq_refl).
Defined.

Lemma totalPolicies_from (ms : list MerchantInfo) (n : nat) :
  fold_left (fun sum m => sum + length (policies m)) ms n
  = n + totalPolicies ms.
Proof.
  unfold totalPolicies; revert n.
  induction ms as [|m ms IH]; intros n; cbn [fold_left]; [lia|].
  rewrite IH, (IH (0 + _)). lia.
Qed.

Lemma totalPolicies_cons (m : MerchantInfo) (ms : list MerchantInfo) :
  totalPolicies (m :: ms) = length (policies m) + totalPolicies ms.
Proof.
  unfold totalPolicies at 1; cbn [fold_left]. now rewrite totalPolicies_from.
Qed.

Section Blocks.

Variable formatAddress : string -> string.

Lemma policyBlock_counts (idx : nat) (p : PolicyInfo) :
  length (filter isPolicyLine (policyBlock formatAddress idx p)) = 1 /\
  filter isRawLine (policyBlock formatAddress idx p) = [].
Proof.
  unfold policyBlock.
  assert (Hc : forall ls,
             filter isPolicyLine
               (map (fun l => VCondition (lineColour l) l) ls) = [] /\
             filter isRawLine
               (map (fun l => VCondition (lineColour l) l) ls) = [])
    by (induction ls as [|l ls [IH1 IH2]]; simpl; auto).
  assert (Hn : forall ls,
             filter isPolicyLine (map VNotes ls) = [] /\
             filter isRawLine (map VNotes ls) = [])
    by (induction ls as [|l ls [IH1 IH2]]; simpl; auto).
  cbn [filter isPolicyLine isRawLine]. rewrite !filter_app.
  destruct (condition p) as [[|c s]|];
    destruct (consensus p) as [[|c' s']|];
    destruct (notes p) as [[|c'' s'']|];
    try destruct (formatCondition formatAddress (String c s)) eqn:E;
    try (now apply formatCondition_some_line in E);
    cbn [filter isPolicyLine isRawLine];
    rewrite ?(proj1 (Hc _)), ?(proj2 (Hc _)),
      ?(proj1 (Hn _)), ?(proj2 (Hn _));
    split; reflexivity.
Qed.

Lemma blocks_count (ps : list PolicyInfo) :
  forall k,
    length (filter isPolicyLine
              (flat_mapi (policyBlock formatAddress) k ps)) = length ps /\
    filter isRawLine (flat_mapi (policyBlock formatAddress) k ps) = [].
Proof.
  induction ps as [|p ps IH]; intros k; cbn [flat_mapi]; [split; reflexivity|].
  rewrite !filter_app, List.length_app.
  destruct (policyBlock_counts k p) as [-> ->].
  destruct (IH (S k)) as [-> ->]. split; reflexivity.
Qed.

(** X4: the view of all policies shows every policy of every merchant
    exactly once, never falls back to printing a raw condition, and
    reports no policies exactly when no merchant has any. *)
Theorem viewAllPolicies_shows_each_policy (merchants : list MerchantInfo) :
  length (filter isPolicyLine (viewAllPolicies formatAddress merchants))
  = totalPolicies merchants /\
  filter isRawLine (viewAllPolicies formatAddress merchants) = [] /\
  (totalPolicies merchants = 0 <-> merchantsWithPolicies merchants = 0).
Proof.
  assert (B : forall ms,
             length (filter isPolicyLine
                       (flat_map (merchantBlock formatAddress) ms))
             = totalPolicies ms /\
             filter isRawLine (flat_map (merchantBlock formatAddress) ms)
             = []).
  { induction ms as [|m ms [IH1 IH2]]; [split; reflexivity|].
    cbn [flat_map]. rewrite !filter_app, List.length_app, IH1, IH2.
    rewrite totalPolicies_cons. unfold merchantBlock.
    destruct (policies m) as [|p ps] eqn:E; [split; reflexivity|].
    cbn [filter isPolicyLine isRawLine].
    destruct (blocks_count (p :: ps) 0) as [-> ->]. split; reflexivity. }
  assert (Z : totalPolicies merchants = 0
              <-> merchantsWithPolicies merchants = 0).
  { unfold merchantsWithPolicies.
    induction merchants as [|m ms IH]; [split; reflexivity|].
    rewrite totalPolicies_cons. cbn [filter].
    destruct (policies m) as [|p ps]; cbn [length Nat.ltb Nat.leb];
      [exact IH|]. simpl. split; intros H; lia. }
  unfold viewAllPolicies.
  destruct (totalPolicies merchants) as [|n] eqn:E.
  - repeat split; auto; apply Z; auto.
  - cbn [filter isPolicyLine isRawLine].
    rewrite !filter_app, List.length_app.
    destruct (B merchants) as [-> ->]. cbn. rewrite E.
    repeat split; try lia; apply Z.
Qed.

End Blocks.

End PolicyViewFacts.

(* ===================================================================== *)
(** ** More on the merchant directory *)
(* ===================================================================== *)

Module DirectoryFacts.

Import Js JsFacts Merchants MerchantDetails.

Lemma or_else_nonempty (a : option string) (b : string) :
  b <> EmptyString -> or_else a b <> EmptyString.
Proof. destruct a as [[|c s]|]; simpl; congruence. Qed.

Lemma app_nonempty_r (a b : string) :
  b <> EmptyString -> a ++ b <> EmptyString.
Proof. destruct a; simpl; congruence. Qed.

Lemma deriveName_nonempty (subOrgId : string) (ws : list ApiWallet) :
  deriveName subOrgId ws <> EmptyString.
Proof.
  unfold deriveName. apply or_else_nonempty, app_nonempty_r. discriminate.
Qed.

(** A merchant that [listMerchants] returns was read from one of the
    sub-organizations. *)
Lemma forEachSubOrg_origin (api : Turnkey) (subOrgIds : list string)
  (m : MerchantInfo) :
  In m (fst (forEachSubOrg api subOrgIds)) ->
  exists warnings,
    In (subOrganizationId m) subOrgIds /\
    readSubOrg api (subOrganizationId m) = Return (m, warnings).
Proof.
  induction subOrgIds as [|id ids IH]; cbn [forEachSubOrg]; [intros []|].
  destruct (readSubOrg api id) as [[m' warnings]|message] eqn:E;
    cbn [fst].
  - intros [<-|Hin].
    + assert (Hid : subOrganizationId m' = id).
      { unfold readSubOrg in E.
        destruct (getTurnkeyClientForSubOrg api id); [|discriminate].
        destruct (getWallets api id); [|discriminate].
        cbn in E. injection E as <- _. reflexivity. }
      rewrite Hid. exists warnings. split; [now left|exact E].
    + destruct (IH Hin) as (w & Hi & Hr). exists w. split; [now right|exact Hr].
  - intros Hin. destruct (IH Hin) as (w & Hi & Hr).
    exists w. split; [now right|exact Hr].
Qed.

Lemma readSubOrg_details (api : Turnkey) (subOrgId : string)
  (m : MerchantInfo) (warnings : list string) :
  readSubOrg api subOrgId = Return (m, warnings) ->
  getMerchantDetails api subOrgId = Return (Some m).
Proof.
  unfold readSubOrg, getMerchantDetails.
  destruct (getTurnkeyClientForSubOrg api subOrgId); [|discriminate].
  destruct (getWallets api subOrgId); [|discriminate].
  cbn. intros H; injection H as <- _.
  destruct (getPolicies api subOrgId); reflexivity.
Qed.

(** X5: [getMerchantDetails] throws only when the client of the
    sub-organization cannot be made (that call is outside its [try]), and
    gives [null] when the wallets cannot be listed; for every merchant that
    [listMerchants] returns it gives that same merchant. *)
Theorem getMerchantDetails_agrees (api : Turnkey)
  (organizationId subOrgId : string) :
  match getTurnkeyClientForSubOrg api subOrgId with
  | Throw e => getMerchantDetails api subOrgId = Throw e
  | Return _ =>
      match getWallets api subOrgId with
      | Throw _ => getMerchantDetails api subOrgId = Return None
      | Return _ =>
          exists m,
            getMerchantDetails api subOrgId = Return (Some m) /\
            subOrganizationId m = subOrgId
      end
  end /\
  forall merchants m,
    fst (listMerchants api organizationId) = Return merchants ->
    In m merchants ->
    getMerchantDetails api (subOrganizationId m) = Return (Some m).
Proof.
  split.
  - unfold getMerchantDetails.
    destruct (getTurnkeyClientForSubOrg api subOrgId); [|reflexivity].
    destruct (getWallets api subOrgId); cbn; [|reflexivity].
    eexists; split; reflexivity.
  - intros merchants m H Hin.
    destruct (MerchantsFacts.listMerchants_returned _ _ _ H) as (ids & _ & ->).
    destruct (forEachSubOrg_origin _ _ _ Hin) as (w & _ & Hr).
    exact (readSubOrg_details _ _ _ _ Hr).
Qed.

(** X6: in every merchant that [listMerchants] returns, the name of the
    merchant, the name and the address of every wallet, and the name and
    the effect of every policy are non-empty, and the merchant's
    identifier is one of the listed sub-organization identifiers. *)
Theorem listed_merchants_are_filled (api : Turnkey)
  (organizationId : string) (merchants : list MerchantInfo)
  (m : MerchantInfo) :
  fst (listMerchants api organizationId) = Return merchants ->
  In m merchants ->
  subOrganizationName m <> EmptyString /\
  (forall w, In w (wallets m) ->
             walletName w <> EmptyString /\ address w <> EmptyString) /\
  (forall p, In p (policies m) ->
             policyName p <> EmptyString /\ effect p <> EmptyString) /\
  exists subOrgIds,
    getSubOrgIds api organizationId = Return subOrgIds /\
    In (subOrganizationId m) (or_empty subOrgIds).
Proof.
  intros H Hin.
  destruct (MerchantsFacts.listMerchants_returned _ _ _ H) as (ids & Hg & ->).
  rewrite Hg.
  destruct (forEachSubOrg_origin _ _ _ Hin) as (warnings & Hi & Hr).
  split; [|split; [|split; [|exists ids; split; [reflexivity|exact Hi]]]];
    revert Hr; generalize (subOrganizationId m) as id; intros id;
    unfold readSubOrg;
    (destruct (getTurnkeyClientForSubOrg api id); [|discriminate]);
    (destruct (getWallets api id) as [ws|]; [|discriminate]);
    cbn; intros Hr; injection Hr as <- _; cbn.
  - destruct (match getOrganization api id with
              | Return o => organizationNameOf o
              | Throw _ => None
              end) as [[|c n]|];
      try apply deriveName_nonempty; discriminate.
  - intros w Hw; apply in_map_iff in Hw as (aw & <- & _).
    unfold walletInfo; cbn. split.
    + apply or_else_nonempty; discriminate.
    + destruct (getWalletAccounts api id (api_walletId aw));
        [apply or_else_nonempty|]; discriminate.
  - intros p Hp.
    destruct (getPolicies api id) as [ps|]; [|destruct Hp].
    cbn in Hp. apply in_map_iff in Hp as (ap & <- & _).
    unfold policyInfo; cbn. split; apply or_else_nonempty; discriminate.
Qed.

Lemma strip_prefix_tail (p s q : string) :
  no_blank p = true -> p <> EmptyString ->
  strip_prefix p s = None ->
  strip_prefix p (s ++ String " " q) = None.
Proof.
  revert s; induction p as [|a p IH]; intros s Hb Hne; [congruence|].
  cbn [no_blank] in Hb. apply andb_true_iff in Hb as [Ha Hp].
  apply negb_true_iff in Ha.
  destruct s as [|b s]; cbn [append strip_prefix].
  - intros _. rewrite Ascii.eqb_sym, Ha. reflexivity.
  - destruct (Ascii.eqb a b); [|reflexivity].
    destruct p as [|a' p]; [destruct s; discriminate|].
    apply IH; [exact Hp|discriminate].
Qed.

Lemma replace_suffix (n : string) :
  includes " Wallet" n = false ->
  replace_first " Wallet" "" (n ++ " Wallet") = n.
Proof.
  induction n as [|c n IH]; [reflexivity|].
  rewrite includes_unfold. intros H.
  apply orb_false_iff in H as [Hs Hi].
  cbn [append]. unfold replace_first; fold replace_first.
  assert (E : strip_prefix " Wallet" (String c (n ++ " Wallet")) = None).
  { unfold startsWith in Hs.
    destruct (strip_prefix " Wallet" (String c n)) eqn:E; [discriminate|].
    cbn [strip_prefix] in E |- *.
    destruct (Ascii.eqb " " c); [|reflexivity].
    now apply (strip_prefix_tail "Wallet" n "Wallet"). }
  rewrite E, (IH Hi). reflexivity.
Qed.

Lemma endsWith_suffix (n : string) :
  endsWith " Wallet" (n ++ " Wallet") = true.
Proof.
  unfold endsWith, slice_last. rewrite string_length_app.
  cbn [String.length].
  replace (String.length n + 7 - 7) with (String.length n) by lia.
  replace (7 <=? String.length n + 7)%nat with true
    by (symmetry; apply Nat.leb_le; lia).
  cbn [andb].
  assert (D : drop (String.length n) (n ++ " Wallet") = " Wallet")
    by (clear; induction n; simpl; auto).
  now rewrite D.
Qed.

(** X7: a merchant whose organization name cannot be read is named after
    its original wallet: when the first wallet whose name ends in
    [" Wallet"] is called [name ++ " Wallet"], and [name] is not empty and
    does not itself contain [" Wallet"], the derived name is [name]. *)
Theorem deriveName_from_wallet (subOrgId name : string)
  (before after : list ApiWallet) (w : ApiWallet) :
  name <> EmptyString ->
  includes " Wallet" name = false ->
  api_walletName w = Some (name ++ " Wallet") ->
  forallb
    (fun x =>
       negb (truthy (api_walletName x)
             && endsWith " Wallet" (or_else (api_walletName x) "")))
    before = true ->
  deriveName subOrgId (before ++ w :: after) = name.
Proof.
  intros Hne Hi Hw Hb. unfold deriveName.
  assert (F : find
                (fun x =>
                   truthy (api_walletName x)
                   && endsWith " Wallet" (or_else (api_walletName x) ""))
                (before ++ w :: after) = Some w).
  { induction before as [|x xs IH]; cbn [app find].
    - rewrite Hw. assert (T : truthy (Some (name ++ " Wallet")) = true)
        by (destruct name; [congruence|reflexivity]).
      rewrite T. cbn [andb].
      assert (O : or_else (Some (name ++ " Wallet")) "" = name ++ " Wallet")
        by (destruct name; [congruence|reflexivity]).
      now rewrite O, endsWith_suffix.
    - cbn [forallb] in Hb. apply andb_true_iff in Hb as [Hx Hxs].
      apply negb_true_iff in Hx. rewrite Hx. exact (IH Hxs). }
  rewrite F, Hw. cbn [option_map].
  rewrite (replace_suffix _ Hi).
  destruct name; [congruence|reflexivity].
Qed.

Lemma deriveName_from_wallet_witness :
  "Acme Corp" <> EmptyString /\
  deriveName "sub-org-1"
    [ {| api_walletId := "w0"; api_walletName := Some "Spare" |};
      {| api_walletId := "w1"; api_walletName := Some "Acme Corp Wallet" |} ]
  = "Acme Corp".
Proof.
  assert (H : "Acme Corp" <> EmptyString) by discriminate.
  split; [exact H|].
  exact (deriveName_from_wallet "sub-org-1" "Acme Corp"
           [ {| api_walletId := "w0"; api_walletName := Some "Spare" |} ] []
           {| api_walletId := "w1";
              api_walletName := Some "Acme Corp Wallet" |}
           H eq_refl eq_refl eq_refl).
Defined.

Lemma listed_merchants_are_filled_witness :
  subOrganizationName
    {| subOrganizationId := "sub-a";
       subOrganizationName := "Acme";
       wallets := [ {| walletId := "sub-a-w";
                       walletName := "Acme Wallet";
                       address := "0xmerchant" |} ];
       policies := [] |} <> EmptyString.
Proof.
  exact (proj1 (listed_merchants_are_filled sampleApi "org" _
                  {| subOrganizationId := "sub-a";
                     subOrganizationName := "Acme";
                     wallets := [ {| walletId := "sub-a-w";
                                     walletName := "Acme Wallet";
                                     address := "0xmerchant" |} ];
                     policies := [] |}
                  eq_refl (or_introl eq_refl))).
Defined.

Lemma getMerchantDetails_agrees_witness :
  getMerchantDetails sampleApi "sub-c"
  = Return (Some {| subOrganizationId := "sub-c";
                    subOrganizationName := "Acme";
                    wallets := [ {| walletId := "sub-c-w";
                                    walletName := "Acme Wallet";
                                    address := "N/A" |} ];
                    policies := [] |}).
Proof.
  exact (proj2 (getMerchantDetails_agrees sampleApi "org" "sub-c")
           _
           {| subOrganizationId := "sub-c";
              subOrganizationName := "Acme";
              wallets := [ {| walletId := "sub-c-w";
                              walletName := "Acme Wallet";
                              address := "N/A" |} ];
              policies := [] |}
           eq_refl (or_intror (or_introl eq_refl))).
Defined.

End DirectoryFacts.

(* ===================================================================== *)
(** ** More on the predicate codec *)
(* ===================================================================== *)

Module CodecMore.

Import Js JsFacts PredicateCodec CodecFacts.

Lemma string_app_inv_head (a b c : string) : a ++ b = a ++ c -> b = c.
Proof. induction a as [|x a IH]; simpl; [auto|]. intros H; injection H; auto. Qed.

Lemma string_app_inj_length (a a' b b' : string) :
  a ++ b = a' ++ b' -> String.length a = String.length a' ->
  a = a' /\ b = b'.
Proof.
  revert a'; induction a as [|x a IH]; intros [|y a']; simpl;
    try discriminate; [auto|].
  intros H L; injection H as -> H; injection L as L.
  destruct (IH _ H L) as [-> ->]; auto.
Qed.

Lemma string_app_inv_tail (a b c : string) : a ++ c = b ++ c -> a = b.
Proof.
  intros H. apply (string_app_inj_length a b c c H).
  apply (f_equal String.length) in H. rewrite !string_length_app in H. lia.
Qed.

(** X8: the restriction names its addresses without loss, up to their
    case: two conditions built for token addresses that are well formed
    once lower-cased are the same text only if the lower-case token
    addresses are the same and the padded treasury addresses are the
    same. *)
Theorem condition_injective (t p t' p' : string) :
  isAddress (toLowerCase t) = true ->
  isAddress (toLowerCase t') = true ->
  condition t p = condition t' p' ->
  toLowerCase t = toLowerCase t' /\ p = p'.
Proof.
  intros Ht Ht' H0.
  destruct (isAddress_inv _ Ht) as (ht & Et & Lt & _).
  destruct (isAddress_inv _ Ht') as (ht' & Et' & Lt' & _).
  unfold condition in H0. rewrite Et, Et' in H0. cbn [join] in H0.
  rewrite Et, Et'.
  rewrite !string_app_assoc in H0.
  apply (string_app_inv_head "eth.tx.to == '0x") in H0.
  apply string_app_inj_length in H0 as [-> H0]; [|congruence].
  split; [reflexivity|].
  apply (string_app_inv_head
           "' && eth.tx.data[2..10] == 'a9059cbb' && eth.tx.data[10..74] == '")
    in H0.
  now apply string_app_inv_tail in H0.
Qed.

Lemma condition_injective_witness :
  toLowerCase sepoliaUsdc
  = toLowerCase "0x1c7d4b196cb0c7b01d743fbc6116a902379c7238" /\
  "00ff" = "00ff".
Proof.
  exact (condition_injective sepoliaUsdc "00ff"
           "0x1c7d4b196cb0c7b01d743fbc6116a902379c7238" "00ff"
           eq_refl eq_refl eq_refl).
Defined.

(** The clauses of a compiled condition are its three parts as written. *)
Lemma clauses_compiled (ht pad : string) :
  all_hex_lower ht = true -> all_hex_lower pad = true ->
  clauses
    (("eth.tx.to == '" ++ ("0x" ++ ht) ++ "'") ++ " && " ++
     ("eth.tx.data[2..10] == '" ++ transferSelector ++ "'") ++ " && " ++
     "eth.tx.data[10..74] == '" ++ pad ++ "'")
  = [ "eth.tx.to == '" ++ ("0x" ++ ht) ++ "'";
      "eth.tx.data[2..10] == 'a9059cbb'";
      "eth.tx.data[10..74] == '" ++ pad ++ "'" ].
Proof.
  intros Xt Xp. unfold clauses.
  change (map trim
    (split " && "
       (("eth.tx.to" ++ " == '" ++ ("0x" ++ ht) ++ "'") ++ " && " ++
        ("eth.tx.data[2..10]" ++ " == '" ++ transferSelector ++ "'")
        ++ " && " ++ "eth.tx.data[10..74]" ++ " == '" ++ pad ++ "'"))
    = [ "eth.tx.to" ++ " == '" ++ ("0x" ++ ht) ++ "'";
        "eth.tx.data[2..10]" ++ " == '" ++ transferSelector ++ "'";
        "eth.tx.data[10..74]" ++ " == '" ++ pad ++ "'" ]).
  rewrite split_three_clauses;
    auto using hex_no_blank;
    [|apply (no_blank_app "0x"); auto using hex_no_blank].
  cbn [map]. now rewrite !trim_clause by reflexivity.
Qed.

(** X9: what the policy view shows for the restriction of
    docs/04-policies.md. For every token address that is well formed once
    lower-cased and every non-empty padded treasury address of lower-case
    hex digits, [formatCondition] renders the condition as nine lines: for
    each of the three clauses its numbered header, the clause as written,
    and its description, with the token address in lower case and the
    treasury address read off the last 40 digits of the padded one. *)
Theorem formatCondition_compiled_lines (formatAddress : string -> string)
  (t pad : string) :
  isAddress (toLowerCase t) = true ->
  all_hex_lower pad = true ->
  pad <> EmptyString ->
  formatCondition formatAddress (condition t pad)
  = [ "   1. Transaction Destination:";
      "      eth.tx.to == '" ++ toLowerCase t ++ "'";
      "      → Must be to USDC token contract ("
        ++ formatAddress (toLowerCase t) ++ ")";
      "   2. Function Selector:";
      "      eth.tx.data[2..10] == 'a9059cbb'";
      "      → ERC-20 transfer() function (0xa9059cbb)";
      "   3. Transfer Destination:";
      "      eth.tx.data[10..74] == '" ++ pad ++ "'";
      "      → Treasury address: "
        ++ formatAddress ("0x" ++ slice_last 40 pad) ].
Proof.
  intros Ht Xp Np.
  destruct (isAddress_inv _ Ht) as (ht & Et & Lt & Xt).
  assert (Qt : no_quote ("0x" ++ ht) = true)
    by (apply (no_quote_app "0x"); auto using hex_no_quote).
  unfold condition; rewrite Et. cbn [join].
  unfold formatCondition at 1.
  cbn [append]. fold (append ht "'").
  change (flat_mapi
            (fun idx part => renderClause formatAddress idx (parseClause part))
            0
            (clauses
               (("eth.tx.to == '" ++ ("0x" ++ ht) ++ "'") ++ " && " ++
                ("eth.tx.data[2..10] == '" ++ transferSelector ++ "'")
                ++ " && " ++ "eth.tx.data[10..74] == '" ++ pad ++ "'"))
          = [ "   1. Transaction Destination:";
              "      eth.tx.to == '" ++ ("0x" ++ ht) ++ "'";
              "      → Must be to USDC token contract ("
                ++ formatAddress ("0x" ++ ht) ++ ")";
              "   2. Function Selector:";
              "      eth.tx.data[2..10] == 'a9059cbb'";
              "      → ERC-20 transfer() function (0xa9059cbb)";
              "   3. Transfer Destination:";
              "      eth.tx.data[10..74] == '" ++ pad ++ "'";
              "      → Treasury address: "
                ++ formatAddress ("0x" ++ slice_last 40 pad) ]).
  rewrite (clauses_compiled ht pad Xt Xp).
  cbn [flat_mapi].
  rewrite (parse_tx_to _ Qt) by discriminate.
  rewrite (parse_destination _ Xp Np).
  reflexivity.
Qed.

Lemma formatCondition_compiled_lines_witness :
  length
    (formatCondition (fun a => a)
       (condition sepoliaUsdc
          "0000000000000000000000001234567890abcdef1234567890abcdef12345678"))
  = 9.
Proof.
  rewrite (formatCondition_compiled_lines (fun a => a) sepoliaUsdc
             "0000000000000000000000001234567890abcdef1234567890abcdef12345678"
             eq_refl eq_refl)
    by discriminate.
  reflexivity.
Defined.

End CodecMore.

(* ===================================================================== *)
(** ** More on the scheduler *)
(* ===================================================================== *)

Module AccountingFacts.

Import Merchants Scheduler Summary SchedulerFacts.

Lemma pending_replace (i : nat) (t t' : Task) (xs : list Task) :
  nth_error xs i = Some t ->
  length (filter isSweeping (replace_nth i t' xs)) + sweepingWeight t
  = length (filter isSweeping xs) + sweepingWeight t'.
Proof.
  revert i; induction xs as [|x xs IH]; intros [|i]; cbn; try discriminate.
  - intros H; injection H as ->. unfold sweepingWeight.
    destruct (isSweeping t), (isSweeping t'); cbn; lia.
  - intros H. specialize (IH _ H).
    destruct (isSweeping x); cbn; lia.
Qed.

Lemma pending_remove (i : nat) (t : Task) (xs : list Task) :
  nth_error xs i = Some t ->
  length (filter isSweeping (remove_nth i xs)) + sweepingWeight t
  = length (filter isSweeping xs).
Proof.
  unfold remove_nth.
  revert i; induction xs as [|x xs IH]; intros [|i]; cbn; try discriminate.
  - intros H; injection H as ->. unfold sweepingWeight.
    destruct (isSweeping t); cbn; lia.
  - intros H. specialize (IH _ H).
    destruct (isSweeping x); cbn in *; lia.
Qed.

Section Scheduled.

Variable parseFloat : option string -> N.
Variables treasuryAddress usdcTokenAddress network : string.

Lemma settle_counts (m : MerchantInfo) (w : WalletInfo)
  (r : Res string SweepResult) (t : Totals) (it : Iteration) :
  counted (fst (fst (settle parseFloat m w r t it))) = S (counted t) /\
  iterationCount (fst (fst (settle parseFloat m w r t it)))
  = iterationCount t /\
  filter isHeader (snd (settle parseFloat m w r t it)) = [].
Proof.
  unfold settle, counted.
  destruct r as [sr|message]; [destruct (success sr)|]; cbn.
  - split; [lia|split; [reflexivity|]].
    now destruct (transactionHash sr) as [[|]|].
  - split; [lia|split; [reflexivity|]].
    now destruct (truthy (error sr)
                  && negb (Js.includes "below threshold"
                             (or_else (error sr) ""))
                  && negb (Js.includes "No USDC" (or_else (error sr) ""))).
  - split; [lia|split; reflexivity].
Qed.

(** Resuming task [i], which held [t], keeps the accounts when the call
    that [t] awaited, if any, has just been counted. *)
Lemma continue_accounted (i : nat) (it : Iteration)
  (next : option (MerchantInfo * WalletInfo
                  * list WalletInfo * list MerchantInfo))
  (j : Job) (t : Task) :
  nth_error (tasks j) i = Some t ->
  length (calls j) + sweepingWeight t
  = counted (totals j) + pendingSweeps j ->
  length (filter isHeader (output j)) = iterationCount (totals j) ->
  Accounted (continue treasuryAddress usdcTokenAddress network i it next j).
Proof.
  intros Hn Hc Hh; unfold Accounted, pendingSweeps in *.
  destruct next as [[[[m w] rest] ms]|]; cbn.
  - pose proof (pending_replace i t (AwaitSweepUSDC m w rest ms it) _ Hn) as P.
    rewrite List.length_app; cbn. unfold sweepingWeight in P at 2; cbn in P.
    split; [lia|exact Hh].
  - pose proof (pending_remove i t _ Hn) as P.
    rewrite filter_app, List.length_app.
    split; [lia|].
    destruct (iterationSuccessful it); cbn; lia.
Qed.

Lemma step_accounted (j : Job) (e : Event) :
  Accounted j ->
  Accounted (step parseFloat treasuryAddress usdcTokenAddress network j e).
Proof.
  intros [Hc Hh]; unfold step.
  destruct (exited j); [split; assumption|].
  destruct e as [|i r|i r|].
  - destruct (timerArmed j); [|split; assumption].
    unfold Accounted, pendingSweeps, counted in *; cbn.
    rewrite !filter_app, !List.length_app; cbn. split; lia.
  - destruct (nth_error (tasks j) i) as [[|]|] eqn:Hn;
      try (split; assumption).
    destruct r as [[|m ms]|message].
    + pose proof (pending_remove i _ _ Hn) as P.
      unfold Accounted, pendingSweeps, counted in *; cbn.
      rewrite filter_app, List.length_app; cbn.
      unfold sweepingWeight in P; cbn in P. split; lia.
    + apply (continue_accounted i _ _ _ AwaitListMerchants); cbn.
      * exact Hn.
      * unfold sweepingWeight; cbn. unfold pendingSweeps in *; cbn. lia.
      * rewrite filter_app, List.length_app; cbn. lia.
    + pose proof (pending_remove i _ _ Hn) as P.
      unfold Accounted, pendingSweeps, counted in *; cbn.
      rewrite filter_app, List.length_app; cbn.
      unfold sweepingWeight in P; cbn in P. split; lia.
  - destruct (nth_error (tasks j) i) as [[|m w rest ms it]|] eqn:Hn;
      try (split; assumption).
    destruct (settle_counts m w r (totals j) it) as (S1 & S2 & S3).
    destruct (settle parseFloat m w r (totals j) it) as [[t' it'] ls].
    cbn [fst snd] in S1, S2, S3.
    apply (continue_accounted i _ _ _ (AwaitSweepUSDC m w rest ms it)); cbn.
    + exact Hn.
    + unfold sweepingWeight; cbn. unfold pendingSweeps in *; cbn. lia.
    + rewrite filter_app, List.length_app, S3; cbn. lia.
  - destruct (handlersInstalled j);
      unfold Accounted, pendingSweeps, counted in *; cbn;
      rewrite ?filter_app, ?List.length_app; cbn; split; lia.
Qed.

(** X10: the accounts of a scheduled job always add up. Whatever the
    timer, the awaited calls and the signals do, every [sweepUSDC] call
    made so far is either still awaited or has been counted exactly once,
    as a successful sweep or as a skipped/failed one, and the iteration
    counter is the number of iteration headers printed. *)
Theorem scheduled_job_accounts (es : list Event) :
  Accounted
    (run parseFloat treasuryAddress usdcTokenAddress network boot es).
Proof.
  assert (G : forall j, Accounted j ->
                Accounted (run parseFloat treasuryAddress usdcTokenAddress
                             network j es)).
  { induction es as [|e es IH]; intros j H; [exact H|].
    apply IH, step_accounted, H. }
  apply G. split; reflexivity.
Qed.

Lemma nextWallet_calls (m : MerchantInfo) (ws : list WalletInfo)
  (later : list (MerchantInfo * WalletInfo)) :
  match nextWallet ws with
  | None =>
      callsOf treasuryAddress usdcTokenAddress network
        (map (fun w => (m, w)) ws ++ later)
      = callsOf treasuryAddress usdcTokenAddress network later
  | Some (w, rest) =>
      callsOf treasuryAddress usdcTokenAddress network
        (map (fun w => (m, w)) ws ++ later)
      = callFor treasuryAddress usdcTokenAddress network m w
        :: callsOf treasuryAddress usdcTokenAddress network
             (map (fun w => (m, w)) rest ++ later)
  end.
Proof.
  induction ws as [|w ws IH]; cbn [nextWallet map app]; [reflexivity|].
  unfold callsOf in *; cbn [filter snd].
  destruct (String.eqb (address w) "N/A"); cbn [negb]; [exact IH|reflexivity].
Qed.

Lemma advance_calls (ms : list MerchantInfo) :
  forall (m : MerchantInfo) (ws : list WalletInfo),
    match advance m ws ms with
    | None =>
        callsOf treasuryAddress usdcTokenAddress network
          (map (fun w => (m, w)) ws ++ allWallets ms) = []
    | Some (m', w, rest, ms') =>
        callsOf treasuryAddress usdcTokenAddress network
          (map (fun w => (m, w)) ws ++ allWallets ms)
        = callFor treasuryAddress usdcTokenAddress network m' w
          :: callsOf treasuryAddress usdcTokenAddress network
               (map (fun w => (m', w)) rest ++ allWallets ms')
    end.
Proof.
  induction ms as [|m1 ms IH]; intros m ws; cbn [advance].
  - pose proof (nextWallet_calls m ws (allWallets [])) as N0.
    destruct (nextWallet ws) as [[w rest]|]; [exact N0|].
    rewrite N0. reflexivity.
  - pose proof (nextWallet_calls m ws (allWallets (m1 :: ms))) as N1.
    destruct (nextWallet ws) as [[w rest]|]; [exact N1|].
    rewrite N1. cbn [allWallets flat_map]. apply IH.
Qed.

(** An iteration that runs alone, from the sweep it awaits to its end. *)
Lemma iteration_runs (rs : list (Res string SweepResult)) :
  forall (j : Job) (m : MerchantInfo) (w : WalletInfo)
         (rest : list WalletInfo) (ms : list MerchantInfo) (it : Iteration),
    exited j = false ->
    tasks j = [AwaitSweepUSDC m w rest ms it] ->
    length rs
    = S (length (callsOf treasuryAddress usdcTokenAddress network
                   (map (fun x => (m, x)) rest ++ allWallets ms))) ->
    let j' :=
      run parseFloat treasuryAddress usdcTokenAddress network j
        (map (Settled 0) rs) in
    tasks j' = [] /\ exited j' = false /\
    calls j'
    = (calls j
       ++ callsOf treasuryAddress usdcTokenAddress network
            (map (fun x => (m, x)) rest ++ allWallets ms))%list /\
    counted (totals j') = counted (totals j) + length rs.
Proof.
  induction rs as [|r rs IH]; intros j m w rest ms it He Ht Hl;
    [discriminate|].
  assert (Hs : step parseFloat treasuryAddress usdcTokenAddress network j
                 (Settled 0 r)
               = continue treasuryAddress usdcTokenAddress network 0
                   (snd (fst (settle parseFloat m w r (totals j) it)))
                   (advance m rest ms)
                   (print
                      (with_totals
                         (fst (fst (settle parseFloat m w r (totals j) it)))
                         j)
                      (snd (settle parseFloat m w r (totals j) it)))).
  { unfold step. rewrite He, Ht. cbn [nth_error].
    now destruct (settle parseFloat m w r (totals j) it) as [[t' it'] ls]. }
  cbv zeta. unfold run. cbn [map fold_left]. rewrite Hs. clear Hs.
  destruct (settle_counts m w r (totals j) it) as (S1 & _ & _).
  destruct (settle parseFloat m w r (totals j) it) as [[t' it'] ls].
  cbn [fst snd] in *.
  pose proof (advance_calls ms m rest) as A.
  destruct (advance m rest ms) as [[[[m' w'] rest'] ms']|].
  - rewrite A in Hl |- *. cbn [length] in Hl. injection Hl as Hl.
    cbn [continue].
    match goal with
    | |- context [fold_left _ _ ?j1] =>
        destruct (IH j1 m' w' rest' ms' it') as (T & E & C & K)
    end; try (cbn; rewrite ?Ht; cbn; congruence).
    unfold run in T, E, C, K.
    cbn [calls totals print with_totals] in C, K.
    split; [exact T|split; [exact E|split]].
    + etransitivity; [exact C|]. now rewrite <- app_assoc.
    + etransitivity; [exact K|]. cbn [length]. lia.
  - rewrite A in Hl |- *. cbn [length] in Hl. injection Hl as Hl.
    destruct rs; [|discriminate]. cbn [map fold_left continue].
    unfold summarize, finishTask; cbn. rewrite Ht, app_nil_r. cbn.
    repeat split; auto. lia.
Qed.

(** X11: a scheduled iteration that is not overtaken by a tick sweeps the
    directory like the one-time command: once [listMerchants] has returned,
    it calls [sweepUSDC] once, in directory order, for every wallet that
    has an address and for no other, whatever the calls return or throw;
    it then ends, having counted each call once. *)
Theorem iteration_attempts_each_wallet_once (j : Job)
  (merchants : list MerchantInfo) (rs : list (Res string SweepResult)) :
  exited j = false ->
  tasks j = [AwaitListMerchants] ->
  length rs
  = length (callsOf treasuryAddress usdcTokenAddress network
              (allWallets merchants)) ->
  let j' :=
    run parseFloat treasuryAddress usdcTokenAddress network j
      (Listed 0 (Return merchants) :: map (Settled 0) rs) in
  tasks j' = [] /\
  calls j'
  = (calls j
     ++ callsOf treasuryAddress usdcTokenAddress network
          (allWallets merchants))%list /\
  counted (totals j') = counted (totals j) + length rs.
Proof.
  intros He Ht Hl.
  assert (Hs : step parseFloat treasuryAddress usdcTokenAddress network j
                 (Listed 0 (Return merchants))
               = match merchants with
                 | [] => finishTask 0 (print j [NoMerchants])
                 | m :: ms =>
                     continue treasuryAddress usdcTokenAddress network 0
                       zeroIteration (advance m (wallets m) ms)
                       (print j
                          [Checking
                             (fold_left
                                (fun sum x => sum + length (wallets x))
                                (m :: ms) 0)
                             (length (m :: ms))])
                 end).
  { unfold step. rewrite He, Ht. reflexivity. }
  cbv zeta. unfold run. cbn [fold_left]. rewrite Hs. clear Hs.
  destruct merchants as [|m ms].
  - destruct rs; [|discriminate]. cbn. rewrite Ht, app_nil_r. cbn.
    repeat split; lia.
  - pose proof (advance_calls ms m (wallets m)) as A.
    change (map (fun w => (m, w)) (wallets m) ++ allWallets ms)%list
      with (allWallets (m :: ms)) in A.
    destruct (advance m (wallets m) ms) as [[[[m' w'] rest'] ms']|].
    + rewrite A in Hl |- *. cbn [length] in Hl. cbn [continue].
      match goal with
      | |- context [fold_left _ _ ?j1] =>
          destruct (iteration_runs rs j1 m' w' rest' ms' zeroIteration)
            as (T & E & C & K)
      end; try (cbn; rewrite ?Ht; cbn; congruence).
      unfold run in T, E, C, K.
      cbn [calls totals print with_totals] in C, K.
      split; [exact T|split].
      * etransitivity; [exact C|]. now rewrite <- app_assoc.
      * exact K.
    + rewrite A in Hl |- *. destruct rs; [|discriminate].
      cbn [map fold_left continue].
      unfold summarize, finishTask; cbn. rewrite Ht, app_nil_r. cbn.
      repeat split; lia.
Qed.

End Scheduled.

Lemma iteration_attempts_each_wallet_once_witness :
  exited (sampleStep idle TimerFired) = false /\
  tasks (sampleStep idle TimerFired) = [AwaitListMerchants] /\
  calls
    (run sampleParse "0xtreasury" "0xusdc" "sepolia"
       (sampleStep idle TimerFired)
       (Listed 0 (Return [acme; beta; acme])
        :: map (Settled 0)
             [Return sweptResult; Throw "signer unreachable"]))
  = (calls (sampleStep idle TimerFired)
     ++ callsOf "0xtreasury" "0xusdc" "sepolia"
          (allWallets [acme; beta; acme]))%list.
Proof.
  split; [reflexivity|split; [reflexivity|]].
  exact (proj1 (proj2 (iteration_attempts_each_wallet_once
                         sampleParse "0xtreasury" "0xusdc" "sepolia"
                         (sampleStep idle TimerFired) [acme; beta; acme]
                         [Return sweptResult; Throw "signer unreachable"]
                         eq_refl eq_refl eq_refl))).
Defined.

Section Batch.

Variables treasuryAddress usdcTokenAddress network : string.
Variable World : Type.
Variable sweepUSDC : World -> SweepCall -> Res string SweepResult * World.

Lemma successes_wallet (m : MerchantInfo) (b : Batch World)
  (w : WalletInfo) :
  length (successful (results World b)) <= length (attempted World b) ->
  length
    (successful
       (results World
          (sweepWallet treasuryAddress usdcTokenAddress network World
             sweepUSDC m b w)))
  <= length
       (attempted World
          (sweepWallet treasuryAddress usdcTokenAddress network World
             sweepUSDC m b w)).
Proof.
  intros H; unfold sweepWallet, successful in *.
  destruct (String.eqb (address w) "N/A"); cbn [results attempted].
  - rewrite filter_app, List.length_app; cbn. lia.
  - rewrite filter_app, !List.length_app.
    destruct (fst (sweepUSDC (world World b)
                     (callFor treasuryAddress usdcTokenAddress network m w)))
      as [r|message]; [destruct (success r)|]; cbn; lia.
Qed.

Lemma successes_all (ms : list MerchantInfo) :
  forall b : Batch World,
    length (successful (results World b)) <= length (attempted World b) ->
    length
      (successful
         (results World
            (fold_left
               (sweepMerchant treasuryAddress usdcTokenAddress network World
                  sweepUSDC) ms b)))
    <= length
         (attempted World
            (fold_left
               (sweepMerchant treasuryAddress usdcTokenAddress network World
                  sweepUSDC) ms b)).
Proof.
  induction ms as [|m ms IH]; intros b H; cbn [fold_left]; [exact H|].
  apply IH. unfold sweepMerchant.
  generalize dependent b. induction (wallets m) as [|w ws IHw]; intros b H;
    cbn [fold_left]; [exact H|].
  apply IHw, successes_wallet, H.
Qed.

(** X12: the summary of the one-time command adds up. The successful and
    the skipped/failed sweeps together are as many as the wallets of the
    directory; there are at most as many successes as [sweepUSDC] calls,
    and every wallet without an address is among the skipped/failed. *)
Theorem summary_adds_up (w : World) (merchants : list MerchantInfo) :
  let rows :=
    results World
      (sweepAll treasuryAddress usdcTokenAddress network World sweepUSDC
         w merchants) in
  length (successful rows) + length (failed rows)
  = length (allWallets merchants) /\
  length (successful rows)
  <= length (attempted World
               (sweepAll treasuryAddress usdcTokenAddress network World
                  sweepUSDC w merchants)) /\
  unavailable merchants <= length (failed rows).
Proof.
  cbv zeta.
  destruct (tracks_merchants treasuryAddress usdcTokenAddress network World
              sweepUSDC merchants
              {| results := []; attempted := []; world := w |}
              {| results := []; attempted := []; world := w |} []
              (tracks_refl treasuryAddress usdcTokenAddress network World
                 sweepUSDC _))
    as (Ha & _ & Hr).
  fold (sweepAll treasuryAddress usdcTokenAddress network World sweepUSDC
          w merchants) in Ha, Hr.
  cbn [app results attempted map] in Ha, Hr.
  pose proof (successes_all merchants
                {| results := []; attempted := []; world := w |}
                (Nat.le_refl _)) as Hs.
  fold (sweepAll treasuryAddress usdcTokenAddress network World sweepUSDC
          w merchants) in Hs.
  assert (Hl : length
                 (results World
                    (sweepAll treasuryAddress usdcTokenAddress network World
                       sweepUSDC w merchants))
               = length (allWallets merchants))
    by (rewrite <- (length_map rowKey), Hr; apply length_map).
  pose proof (filter_length row_success
                (results World
                   (sweepAll treasuryAddress usdcTokenAddress network World
                      sweepUSDC w merchants))) as Hp.
  unfold successful, failed in *.
  assert (Hu : length (attempted World
                         (sweepAll treasuryAddress usdcTokenAddress network
                            World sweepUSDC w merchants))
               + unavailable merchants = length (allWallets merchants)).
  { rewrite Ha. unfold callsOf, unavailable. rewrite length_map.
    pose proof (filter_length
                  (fun mw : MerchantInfo * WalletInfo =>
                     String.eqb (address (snd mw)) "N/A")
                  (allWallets merchants)) as F.
    lia. }
  repeat split; lia.
Qed.

End Batch.

End AccountingFacts.

(* ===================================================================== *)
(** ** The wallets offered by the balance command *)
(* ===================================================================== *)

Module BalanceFacts.

Import Merchants Scheduler Balance.

Lemma addresses_of_wallets (m : MerchantInfo) (ws : list WalletInfo) :
  map (fun mw : MerchantInfo * WalletInfo => address (snd mw))
    (filter (fun mw => negb (String.eqb (address (snd mw)) "N/A"))
       (map (fun w => (m, w)) ws))
  = map address
      (filter (fun w => negb (String.eqb (address w) "N/A")) ws).
Proof.
  induction ws as [|w ws IH]; cbn [map filter snd]; [reflexivity|].
  destruct (negb (String.eqb (address w) "N/A")); cbn [map snd];
    now rewrite IH.
Qed.

Lemma pushWallets_addresses (m : MerchantInfo) :
  forall options,
    map option_address (pushWallets options m)
    = (map option_address options
       ++ map address
            (filter (fun w => negb (String.eqb (address w) "N/A"))
               (wallets m)))%list.
Proof.
  unfold pushWallets.
  induction (wallets m) as [|w ws IH]; intros options;
    cbn [fold_left filter map].
  - now rewrite app_nil_r.
  - rewrite IH.
    destruct (negb (String.eqb (address w) "N/A")); [|reflexivity].
    rewrite map_app, <- app_assoc. reflexivity.
Qed.

Lemma pushed_addresses (treasuryAddress usdcTokenAddress network : string)
  (merchants : list MerchantInfo) :
  forall options,
    map option_address (fold_left pushWallets merchants options)
    = (map option_address options
       ++ map call_address
            (callsOf treasuryAddress usdcTokenAddress network
               (allWallets merchants)))%list.
Proof.
  unfold callsOf. induction merchants as [|m ms IH]; intros options;
    cbn [fold_left allWallets flat_map filter map].
  - now rewrite app_nil_r.
  - rewrite IH, pushWallets_addresses, <- app_assoc. f_equal.
    fold (allWallets ms).
    rewrite filter_app, !map_app. f_equal.
    rewrite map_map. cbn [callFor call_address fst snd].
    symmetry. apply addresses_of_wallets.
Qed.

Lemma pushWallets_available (m : MerchantInfo) :
  forall options,
    Forall hasAddress options -> Forall hasAddress (pushWallets options m).
Proof.
  unfold pushWallets.
  induction (wallets m) as [|w ws IH]; intros options H; cbn [fold_left];
    [exact H|].
  apply IH. destruct (String.eqb (address w) "N/A") eqn:E; cbn [negb];
    [exact H|].
  apply Forall_app; split; [exact H|].
  constructor; [|constructor]. intros _. cbn [merchantOption option_address].
  now apply String.eqb_neq.
Qed.

Lemma pushed_available (merchants : list MerchantInfo) :
  forall options,
    Forall hasAddress options ->
    Forall hasAddress (fold_left pushWallets merchants options).
Proof.
  induction merchants as [|m ms IH]; intros options H; cbn [fold_left];
    [exact H|].
  apply IH, pushWallets_available, H.
Qed.

(** X13: the wallets the balance command offers are the treasury, when it
    could be loaded, followed by the merchant wallets a one-time sweep
    calls [sweepUSDC] for, in the same order: the wallets that have an
    address. A source that fails costs only its own wallets and one
    warning, and no merchant wallet is offered without an address. *)
Theorem offered_wallets_are_the_swept_ones
  (treasuryAddress usdcTokenAddress network : string)
  (treasury : Res string string)
  (listed : Res string (list MerchantInfo)) :
  map option_address (fst (walletOptions treasury listed))
  = ((match treasury with Return a => [a] | Throw _ => [] end)
     ++ (match listed with
         | Return merchants =>
             map call_address
               (callsOf treasuryAddress usdcTokenAddress network
                  (allWallets merchants))
         | Throw _ => []
         end))%list /\
  length (snd (walletOptions treasury listed))
  = (match treasury with Return _ => 0 | Throw _ => 1 end)
    + (match listed with Return _ => 0 | Throw _ => 1 end) /\
  Forall hasAddress (fst (walletOptions treasury listed)).
Proof.
  unfold walletOptions.
  destruct treasury as [a|e], listed as [merchants|e']; cbn [fst snd];
    rewrite ?(pushed_addresses treasuryAddress usdcTokenAddress network);
    repeat split; try reflexivity;
    try (apply pushed_available);
    repeat constructor; try discriminate.
Qed.

End BalanceFacts.

(* ===================================================================== *)
(** ** The prompts *)
(* ===================================================================== *)

Module CliFacts.

Import Js JsFacts Cli.

Lemma trimEnd_idempotent (s : string) : trimEnd (trimEnd s) = trimEnd s.
Proof.
  induction s as [|c s IH]; [reflexivity|].
  cbn [trimEnd]. destruct (trimEnd s) as [|a r] eqn:E.
  - destruct (is_space c) eqn:S; [reflexivity|].
    cbn [trimEnd]. now rewrite S.
  - change (trimEnd (String c (String a r)))
      with (match trimEnd (String a r) with
            | EmptyString =>
                if is_space c then EmptyString else String c EmptyString
            | r0 => String c r0
            end).
    now rewrite IH.
Qed.

Lemma trimStart_head (s : string) :
  trimStart s = EmptyString \/
  exists c r, trimStart s = String c r /\ is_space c = false.
Proof.
  induction s as [|c s IH]; [now left|].
  cbn [trimStart]. destruct (is_space c) eqn:S; [exact IH|].
  right. now exists c, s.
Qed.

Lemma trimEnd_head (c : ascii) (s : string) :
  is_space c = false -> exists r, trimEnd (String c s) = String c r.
Proof.
  intros S. cbn [trimEnd]. destruct (trimEnd s) as [|a r].
  - rewrite S. now exists EmptyString.
  - now exists (String a r).
Qed.

Lemma trim_idempotent (s : string) : trim (trim s) = trim s.
Proof.
  unfold trim.
  destruct (trimStart_head s) as [E|(c & r & E & S)]; rewrite E.
  - reflexivity.
  - destruct (trimEnd_head c r S) as (r' & E').
    rewrite E'. cbn [trimStart]. rewrite S, <- E'.
    apply trimEnd_idempotent.
Qed.

(** X14: the merchant name the prompt returns is never empty and has no
    blanks around it, whatever was answered and whether or not anything
    was. *)
Theorem promptMerchantName_never_empty (answer : option string) :
  promptMerchantName answer <> EmptyString /\
  trim (promptMerchantName answer) = promptMerchantName answer.
Proof.
  unfold promptMerchantName.
  destruct answer as [value|]; cbn [option_map or_else];
    [|split; [discriminate|reflexivity]].
  destruct (trim value) as [|c r] eqn:E; cbn [or_else].
  - split; [discriminate|reflexivity].
  - split; [discriminate|]. rewrite <- E. apply trim_idempotent.
Qed.

(** X15: an answer the validator of a prompt accepts is returned without
    the blanks around it, and is not empty; trimming it again changes
    nothing. *)
Theorem accepted_answer_is_returned_trimmed (message value : string) :
  validateNonEmpty message value = None ->
  promptMerchantName (Some value) = trim value /\
  promptSubOrgId (Some value) = trim value /\
  promptWalletId (Some value) = trim value /\
  trim value <> EmptyString /\
  trim (trim value) = trim value.
Proof.
  unfold validateNonEmpty, promptMerchantName, promptSubOrgId,
    promptWalletId.
  cbn [option_map]. intros H.
  destruct (trim value) as [|c r] eqn:E; [discriminate|].
  cbn [or_else]. repeat split; try discriminate.
  rewrite <- E. apply trim_idempotent.
Qed.

Lemma accepted_answer_is_returned_trimmed_witness :
  validateNonEmpty "Wallet ID cannot be empty" "  wallet-1 " = None /\
  promptWalletId (Some "  wallet-1 ") = "wallet-1".
Proof.
  split; [reflexivity|].
  exact (proj1 (proj2 (proj2
           (accepted_answer_is_returned_trimmed
              "Wallet ID cannot be empty" "  wallet-1 " eq_refl)))).
Defined.

(** X16: the private key prompt accepts exactly the answers whose
    normalized key is [0x] followed by 64 characters: after trimming,
    either 66 characters that start with [0x], or 64 characters that do
    not. Which characters they are is not looked at. *)
Theorem validatePrivateKey_accepts (value : string) :
  validatePrivateKey value = None <->
  exists body,
    String.length body = 64 /\
    normalizedKey value = "0x" ++ body /\
    (trim value = "0x" ++ body \/
     trim value = body /\ startsWith "0x" body = false).
Proof.
  unfold validatePrivateKey, normalizedKey, startsWith.
  split.
  - intros H. destruct value as [|c0 v0]; [discriminate|].
    set (value := String c0 v0) in *.
    destruct (Nat.eqb (String.length (trim value)) 0) eqn:Z;
      [discriminate|].
    destruct (strip_prefix "0x" (trim value)) as [body|] eqn:P.
    + destruct (Nat.eqb (String.length (trim value)) 66) eqn:L;
        [|discriminate].
      apply Nat.eqb_eq in L.
      pose proof (strip_prefix_length _ _ _ P) as Q.
      pose proof (strip_prefix_sound _ _ _ P) as R.
      exists body. cbn [String.length] in Q.
      repeat split; [lia|exact R|now left].
    + destruct (Nat.eqb (String.length ("0x" ++ trim value)) 66) eqn:L;
        [|discriminate].
      apply Nat.eqb_eq in L. cbn [append String.length] in L.
      exists (trim value). repeat split; [lia|].
      right. split; [reflexivity|]. now rewrite P.
  - intros (body & L & N & T).
    assert (V : value <> EmptyString).
    { intros ->. cbn in T. destruct T as [T|[T _]]; [discriminate|].
      subst body. discriminate. }
    destruct value as [|c0 v0]; [congruence|].
    set (value := String c0 v0) in *.
    assert (Z : Nat.eqb (String.length (trim value)) 0 = false).
    { apply Nat.eqb_neq. destruct T as [T|[T _]]; rewrite T.
      - cbn [append String.length]. lia.
      - lia. }
    rewrite Z, N. cbn [append String.length]. rewrite L. reflexivity.
Qed.

End CliFacts.
